(** * stash-stream: the carousel navigation state machine

    A shallow embedding of the navigation code of
    [src/components/Carousel.tsx] (the paged carousel), of the search box
    of its [Overlay] (the debounced query commit) and of the two
    single-page [VideoCarousel] variants, with the properties the
    specification states about them. *)

From Stdlib Require Import ZArith Bool String Lia.
From stdpp Require Import base option list.

Local Open Scope Z_scope.

(** ** The paged carousel, [src/components/Carousel.tsx] *)

Module Carousel.

(** [ItemType] and [CarouselItem], as the interface declares them.
    Optional members are [option]s. *)
Inductive ItemType := video | image.

Record CarouselItem := {
  type : ItemType;
  url : string;
  title : string;
  performers : list string;
  studio : option string;
  date : option string;
  tags : list string;
  details : option string;
  rating : option Z;
  oCounter : option Z
}.

(** The members of [Props] the component reads.  [onItemChange] is an
    optional callback: the boolean says whether the parent passed one.
    [onNextPage] and [onPreviousPage] are the two page requests below. *)
Record Props := {
  items : list CarouselItem;
  loading : bool;
  initialIndex : option Z;
  onItemChange : bool;
  page : Z;
  totalPages : Z;
  totalResults : Z
}.

(** The component state: [useState(initialIndex || 0)], [useState(1)],
    [useState(false)]. *)
Record State := {
  index : Z;
  direction : Z;
  crop : bool
}.

Definition mount (p : Props) : State :=
  {| index := match initialIndex p with
              | Some i => if i =? 0 then 0 else i
              | None => 0
              end;
     direction := 1;
     crop := false |}.

Definition setIndex (n : Z) (s : State) : State :=
  {| index := n; direction := direction s; crop := crop s |}.

Definition setDirection (d : Z) (s : State) : State :=
  {| index := index s; direction := d; crop := crop s |}.

Definition setCrop (f : bool -> bool) (s : State) : State :=
  {| index := index s; direction := direction s; crop := f (crop s) |}.

(** [items.length] *)
Definition items_length (p : Props) : Z := Z.of_nat (length (items p)).

(** [const hasNextItem = index < items.length - 1 || page < totalPages - 1] *)
Definition hasNextItem (p : Props) (s : State) : bool :=
  (index s <? items_length p - 1) || (page p <? totalPages p - 1).

(** [const hasPreviousItem = index !== 0 || page > 1] *)
Definition hasPreviousItem (p : Props) (s : State) : bool :=
  negb (index s =? 0) || (page p >? 1).



Definition currentItem (p : Props) (s : State) : option CarouselItem :=
  if index s <? 0 then None else items p !! Z.to_nat (index s).

(** The two asynchronous callbacks of the parent a handler can await. *)
Inductive PageCall := OnNextPage | OnPreviousPage.

(** The body of an [async] handler is a straight line of instructions: a
    handler runs up to its first [Await], is suspended there, and the
    rest runs when the awaited promise resolves.  The values are those
    of the render whose closure was called. *)
Inductive Instr :=
  | Await (c : PageCall)
  | SetIndex (n : Z)
  | SetDirection (d : Z)
  | OnItemChange (n : Z).

(** [onItemChange && onItemChange(nextIndex)] *)
Definition notify (p : Props) (n : Z) : list Instr :=
  if onItemChange p then [OnItemChange n] else [].

(** [nextItem] *)
Definition nextItem (p : Props) (s : State) : list Instr :=
  if negb (hasNextItem p s) then []
  else
    let nextIndex := index s + 1 in
    if (nextIndex =? items_length p - 1) && (page p <? totalPages p - 1)
    then Await OnNextPage :: SetIndex 0 :: SetDirection 1 :: notify p 0
    else SetIndex nextIndex :: SetDirection 1 :: notify p nextIndex.

Section Navigation.

(** [PER_PAGE] is imported from [../routes/carousel], a file that is
    not under src/: it is a parameter of the development. *)
Variable PER_PAGE : Z.

(** [previousItem] *)
Definition previousItem (p : Props) (s : State) : list Instr :=
  if negb (hasPreviousItem p s) then []
  else
    let nextIndex := index s - 1 in
    if nextIndex <? 0
    then Await OnPreviousPage :: SetIndex (PER_PAGE - 1)
           :: SetDirection (-1) :: notify p (PER_PAGE - 1)
    else SetIndex nextIndex :: SetDirection (-1) :: notify p nextIndex.

(** [onQueryChange]: the argument of the overlay's callback is dropped,
    the handler is [() => { setIndex(0) }]. *)
Definition onQueryChange : list Instr := [SetIndex 0].

(** *** The running component

    A page request that has been issued and not yet answered, with the
    rest of the handler that awaits it. *)
Record Request := {
  target : Z;
  tag : nat;
  resume : list Instr
}.

(** The component together with its parent route: the props of the
    current render, the component state, the [q] parameter of the
    location, the page requests in flight and the [onItemChange] calls
    made so far.  [generation] belongs to the Page Store below. *)
Record World := {
  props : Props;
  state : State;
  location_q : string;
  generation : nat;
  in_flight : list Request;
  notified : list Z
}.

Definition with_state (f : State -> State) (w : World) : World :=
  {| props := props w; state := f (state w); location_q := location_q w;
     generation := generation w; in_flight := in_flight w;
     notified := notified w |}.

Definition with_props (p : Props) (w : World) : World :=
  {| props := p; state := state w; location_q := location_q w;
     generation := generation w; in_flight := in_flight w;
     notified := notified w |}.

Definition with_in_flight (l : list Request) (w : World) : World :=
  {| props := props w; state := state w; location_q := location_q w;
     generation := generation w; in_flight := l;
     notified := notified w |}.

Definition with_notified (n : Z) (w : World) : World :=
  {| props := props w; state := state w; location_q := location_q w;
     generation := generation w; in_flight := in_flight w;
     notified := notified w ++ [n] |}.

(** Modelled from the spec: the route component that passes [onNextPage]
    and [onPreviousPage] is not under src/.  By section 4.1 of the
    specification the first asks the Page Store for [pageNumber + 1] and
    the second for [pageNumber - 1], for the current query; by section 5
    the request captures the current generation tag. *)
Definition requested_page (c : PageCall) (p : Props) : Z :=
  match c with
  | OnNextPage => page p + 1
  | OnPreviousPage => page p - 1
  end.

Definition issue (c : PageCall) (k : list Instr) (w : World) : World :=
  with_in_flight
    (in_flight w ++ [{| target := requested_page c (props w);
                        tag := generation w;
                        resume := k |}]) w.

(** Running a handler body: state setters and notifications take effect
    in order, an [Await] issues the page request and parks the rest. *)
Fixpoint exec (body : list Instr) (w : World) : World :=
  match body with
  | [] => w
  | Await c :: k => issue c k w
  | SetIndex n :: k => exec k (with_state (setIndex n) w)
  | SetDirection d :: k => exec k (with_state (setDirection d) w)
  | OnItemChange n :: k => exec k (with_notified n w)
  end.

(** The user's two navigation requests.  The buttons and the swipe
    gesture call the handler of the current render; so does a hotkey
    whenever the index has changed since the key was bound. *)
Definition advance (w : World) : World := exec (nextItem (props w) (state w)) w.
Definition retreat (w : World) : World := exec (previousItem (props w) (state w)) w.

(** The answer of the remote catalogue to a page request. *)
Inductive Outcome :=
  | Loaded (its : list CarouselItem) (pages results : Z)
  | Failed.

(** Modelled from the spec: the Page Store of the route component is not
    under src/.  By sections 3 and 4.2 a successful fetch replaces the
    Page wholesale (items, page number, totals); by section 5 a result
    whose generation tag is not the current one is dropped. *)
Definition replace_page (r : Request) (its : list CarouselItem)
    (pages results : Z) (w : World) : World :=
  if Nat.eqb (tag r) (generation w)
  then with_props {| items := its; loading := loading (props w);
                     initialIndex := initialIndex (props w);
                     onItemChange := onItemChange (props w);
                     page := target r;
                     totalPages := pages;
                     totalResults := results |} w
  else w.

(** The [i]-th request in flight is answered.  When the promise resolves
    the parked rest of the handler runs; when it rejects, the handler
    ends with the exception and the rest never runs. *)
Definition settle (i : nat) (o : Outcome) (w : World) : World :=
  match in_flight w !! i with
  | None => w
  | Some r =>
      let w1 := with_in_flight (delete i (in_flight w)) w in
      match o with
      | Failed => w1
      | Loaded its pages results =>
          exec (resume r) (replace_page r its pages results w1)
      end
  end.

(** The overlay's [setQueryInUrl]: [onQueryChange(query)], then
    [navigate] with the query as the [q] parameter. *)
Definition setQueryInUrl (text : string) (w : World) : World :=
  let w1 := exec onQueryChange w in
  {| props := props w1; state := state w1; location_q := text;
     generation := generation w1; in_flight := in_flight w1;
     notified := notified w1 |}.

(** Modelled from the spec: the Query-Change Reconciler of the route
    component is not under src/.  By section 4.3 a committed query asks
    the Page Store for page 1 of the new query, and by section 5 it
    advances the generation tag. *)
Definition reconcile (w : World) : World :=
  {| props := props w; state := state w; location_q := location_q w;
     generation := S (generation w);
     in_flight := in_flight w ++ [{| target := 1;
                                     tag := S (generation w);
                                     resume := [] |}];
     notified := notified w |}.

Definition commitQuery (text : string) (w : World) : World :=
  reconcile (setQueryInUrl text w).

End Navigation.

(** *** The navigation requests as one family *)

Inductive Nav := Advance | Retreat.

Definition handler (PER_PAGE : Z) (nav : Nav) (p : Props) (s : State)
    : list Instr :=
  match nav with
  | Advance => nextItem p s
  | Retreat => previousItem PER_PAGE p s
  end.

Definition request (PER_PAGE : Z) (nav : Nav) (w : World) : World :=
  exec (handler PER_PAGE nav (props w) (state w)) w.

(** The effect of a handler body on the component state alone, up to the
    point where it is suspended. *)
Fixpoint run_state (body : list Instr) (s : State) : State :=
  match body with
  | [] => s
  | Await _ :: _ => s
  | SetIndex n :: k => run_state k (setIndex n s)
  | SetDirection d :: k => run_state k (setDirection d s)
  | OnItemChange _ :: k => run_state k s
  end.

(** Whether a handler body reaches an [Await]. *)
Fixpoint awaits (body : list Instr) : bool :=
  match body with
  | [] => false
  | Await _ :: _ => true
  | _ :: k => awaits k
  end.

(** *** The derived flags in the words of the specification

    Section 4.1: [hasNext = index < items.length - 1 || pageNumber <
    totalPages] and [hasPrevious = index > 0 || pageNumber > 1]. *)
Definition spec_hasNext (p : Props) (s : State) : bool :=
  (index s <? items_length p - 1) || (page p <? totalPages p).

Definition spec_hasPrevious (p : Props) (s : State) : bool :=
  (index s >? 0) || (page p >? 1).

(** *** Sample pages and worlds *)

Definition clip : CarouselItem :=
  {| type := video; url := "/scene/1/stream"; title := "clip";
     performers := []; studio := None; date := None; tags := [];
     details := None; rating := None; oCounter := None |}.

Definition page_of (n : nat) (number pages : Z) : Props :=
  {| items := repeat clip n; loading := false; initialIndex := None;
     onItemChange := true; page := number; totalPages := pages;
     totalResults := 40 * pages |}.

Definition cursor (i d : Z) : State :=
  {| index := i; direction := d; crop := false |}.

Definition idle (p : Props) (s : State) : World :=
  {| props := p; state := s; location_q := EmptyString; generation := 0%nat;
     in_flight := []; notified := [] |}.

End Carousel.

(** ** The search box of the overlay, [Overlay] in
    [src/components/Carousel.tsx] *)

Module Overlay.

(** Time is counted in milliseconds. *)
Definition wait : Z := 500.

(** Modelled from the spec: [debounce] comes from the package
    lodash.debounce, which is not under src/.  By section 4.4 a debounced
    function buffers its calls and invokes the wrapped function once the
    quiet interval has passed with no further call, with the arguments
    of the last call (trailing edge).  A debounced function that has
    been called and has not fired yet is its armed timer: the arguments
    of the last call and the time at which it fires. *)
Record Timer := {
  lastArgs : string;
  deadline : Z
}.

Definition call (t : Z) (value : string) : Timer :=
  {| lastArgs := value; deadline := t + wait |}.

(** [const debouncedSetQueryInUrl = debounce(setQueryInUrl, 500)] is a
    statement of the body of [Overlay]: every render makes a debounced
    function of its own, and the [onChange] of the input is the closure
    of the last render.  [current] is the timer of that function,
    [orphaned] holds the armed timers of the debounced functions of
    earlier renders (oldest first), and [committed] records the calls of
    [setQueryInUrl] with the time they were made. *)
Record Overlay := {
  current : option Timer;
  orphaned : list Timer;
  committed : list (Z * string)
}.

Definition mounted : Overlay :=
  {| current := None; orphaned := []; committed := [] |}.

(** What happens to the overlay: the input's [onChange] with
    [event.target.value], or a new render of the component. *)
Inductive Event :=
  | Change (t : Z) (value : string)
  | Render (t : Z).

Definition due (t : Z) (tm : Timer) : bool := deadline tm <=? t.

Definition fired (tm : Timer) : Z * string := (deadline tm, lastArgs tm).

(** Time passes up to [t]: every timer that has reached its deadline
    fires and calls [setQueryInUrl] with its last arguments.  Orphaned
    timers were armed before the current one, so they come first. *)
Definition elapse (t : Z) (o : Overlay) : Overlay :=
  let now := filter (fun tm => due t tm = true) (orphaned o) in
  let later := filter (fun tm => due t tm = false) (orphaned o) in
  match current o with
  | Some tm =>
      if due t tm
      then {| current := None; orphaned := later;
              committed := committed o ++ map fired now ++ [fired tm] |}
      else {| current := Some tm; orphaned := later;
              committed := committed o ++ map fired now |}
  | None =>
      {| current := None; orphaned := later;
         committed := committed o ++ map fired now |}
  end.

(** [onChange]: [debouncedSetQueryInUrl(event.target.value)] (re)arms
    the timer of the current render's debounced function. *)
Definition onChange (t : Z) (value : string) (o : Overlay) : Overlay :=
  {| current := Some (call t value); orphaned := orphaned o;
     committed := committed o |}.

(** A new render evaluates [debounce(setQueryInUrl, 500)] again: the
    input gets the new function, the timer of the old one stays armed. *)
Definition render (o : Overlay) : Overlay :=
  {| current := None;
     orphaned := orphaned o ++ match current o with
                               | Some tm => [tm]
                               | None => []
                               end;
     committed := committed o |}.

Definition step (o : Overlay) (e : Event) : Overlay :=
  match e with
  | Change t value => onChange t value (elapse t o)
  | Render t => render (elapse t o)
  end.

Definition run (es : list Event) (o : Overlay) : Overlay :=
  fold_left step es o.

(** No further event: every armed timer eventually fires. *)
Definition quiesce (o : Overlay) : Overlay :=
  {| current := None; orphaned := [];
     committed := committed o ++ map fired (orphaned o)
                    ++ match current o with
                       | Some tm => [fired tm]
                       | None => []
                       end |}.

(** The query commits a sequence of events produces in the end. *)
Definition commits (es : list Event) : list (Z * string) :=
  committed (quiesce (run es mounted)).

(** A burst: each change comes at or after the previous one and less
    than the quiet interval after it. *)
Fixpoint burst (prev : Z) (l : list (Z * string)) : Prop :=
  match l with
  | [] => True
  | (t, _) :: rest => prev <= t < prev + wait /\ burst t rest
  end.

Definition changes (l : list (Z * string)) : list Event :=
  map (fun c => Change (fst c) (snd c)) l.

End Overlay.

(** ** The single-page carousels: [src/carousel.tsx] and the
    [VideoCarousel] of [src/components/Carousel.tsx] *)

Module VideoCarousel.

(** The index is a JavaScript number.  Integers are all the handlers
    produce, except that the remainder by zero is [NaN]. *)
Inductive number := Num (z : Z) | NaN.

Definition add (a b : number) : number :=
  match a, b with
  | Num x, Num y => Num (x + y)
  | _, _ => NaN
  end.

(** [a % b]: the remainder has the sign of the dividend. *)
Definition rem (a b : number) : number :=
  match a, b with
  | Num x, Num y => if y =? 0 then NaN else Num (Z.rem x y)
  | _, _ => NaN
  end.

(** [Math.max(a, b)] *)
Definition max (a b : number) : number :=
  match a, b with
  | Num x, Num y => Num (Z.max x y)
  | _, _ => NaN
  end.

Record State := {
  currentVideoIndex : number;
  direction : Z;
  cropVideo : bool
}.

Definition initial : State :=
  {| currentVideoIndex := Num 0; direction := 1; cropVideo := false |}.

Definition setCurrentVideoIndex (f : number -> number) (s : State) : State :=
  {| currentVideoIndex := f (currentVideoIndex s);
     direction := direction s; cropVideo := cropVideo s |}.

Definition setDirection (d : Z) (s : State) : State :=
  {| currentVideoIndex := currentVideoIndex s;
     direction := d; cropVideo := cropVideo s |}.

Section Videos.

(** The [Video] interface differs between the two files; the handlers
    only read [videos.length]. *)
Variable Video : Type.

Definition videos_length (videos : list Video) : number :=
  Num (Z.of_nat (length videos)).

(** [src/carousel.tsx] *)
Definition nextVideo (videos : list Video) (s : State) : State :=
  setDirection 1
    (setCurrentVideoIndex
       (fun prevIndex => rem (add prevIndex (Num 1)) (videos_length videos)) s).

Definition previousVideo (videos : list Video) (s : State) : State :=
  setDirection (-1)
    (setCurrentVideoIndex
       (fun prevIndex =>
          max (Num 0)
              (rem (add (add prevIndex (Num (-1))) (videos_length videos))
                   (videos_length videos))) s).

(** The [VideoCarousel] of [src/components/Carousel.tsx]: the same two
    handlers behind [if (videos.length === 0) return]. *)
Definition nextVideo_guarded (videos : list Video) (s : State) : State :=
  if Nat.eqb (length videos) 0 then s else nextVideo videos s.

Definition previousVideo_guarded (videos : list Video) (s : State) : State :=
  if Nat.eqb (length videos) 0 then s else previousVideo videos s.

(** [onQueryChange] of the guarded variant: [setCurrentVideoIndex(0)]. *)
Definition onQueryChange (s : State) : State :=
  setCurrentVideoIndex (fun _ => Num 0) s.

End Videos.

End VideoCarousel.

(** ** Sessions of the paged carousel

    What can happen to a mounted [Carousel], one event at a time. *)

Module Session.
Import Carousel.

Inductive Event :=
  | Navigate (nav : Nav)
  | Answer (i : nat) (o : Outcome)
  | Commit (text : string)
  | ToggleCrop.

(** [onCrop={() => setCrop((prev) => !prev)}] *)
Definition onCrop (w : World) : World := with_state (setCrop negb) w.

Definition step (PER_PAGE : Z) (w : World) (e : Event) : World :=
  match e with
  | Navigate nav => request PER_PAGE nav w
  | Answer i o => settle i o w
  | Commit text => commitQuery text w
  | ToggleCrop => onCrop w
  end.

Definition run (PER_PAGE : Z) (es : list Event) (w : World) : World :=
  fold_left (step PER_PAGE) es w.

(** The component as first rendered with props [p]: nothing in flight,
    nothing notified. *)
Definition start (p : Props) : World :=
  {| props := p; state := mount p; location_q := EmptyString;
     generation := 0%nat; in_flight := []; notified := [] |}.

(** How many times the crop button is pressed in a session. *)
Fixpoint toggles (es : list Event) : nat :=
  match es with
  | [] => 0%nat
  | ToggleCrop :: rest => S (toggles rest)
  | _ :: rest => toggles rest
  end.

(** What a handler body may contain for the cursor to stay sound: only
    indices that are not negative, only the directions 1 and -1. *)
Definition sound_instr (i : Instr) : Prop :=
  match i with
  | SetIndex n => 0 <= n
  | SetDirection d => d = 1 \/ d = -1
  | _ => True
  end.

Definition sound (w : World) : Prop :=
  0 <= index (state w) /\
  (direction (state w) = 1 \/ direction (state w) = -1) /\
  Forall (fun r => Forall sound_instr (resume r)) (in_flight w).

End Session.

(** ** The earlier revision of the paged carousel, [unnamed/part_002]

    The same props, state and callbacks; the handlers are called
    [nextVideo] and [previousVideo] and have no guard, and the flags
    handed to the buttons are [hasNextPage] and [hasPreviousPage]. *)

Module Legacy.
Import Carousel.

(** [nextVideo] *)
Definition nextVideo (p : Props) (s : State) : list Instr :=
  let nextIndex := index s + 1 in
  if nextIndex =? items_length p - 1
  then Await OnNextPage :: SetIndex 0 :: SetDirection 1 :: notify p 0
  else SetIndex nextIndex :: SetDirection 1 :: notify p nextIndex.

(** [previousVideo] *)
Definition previousVideo (PER_PAGE : Z) (p : Props) (s : State) : list Instr :=
  let nextIndex := index s - 1 in
  if nextIndex <? 0
  then Await OnPreviousPage :: SetIndex (PER_PAGE - 1)
         :: SetDirection (-1) :: notify p (PER_PAGE - 1)
  else SetIndex nextIndex :: SetDirection (-1) :: notify p nextIndex.

(** [const hasNextPage = page < totalPages - 1] *)
Definition hasNextPage (p : Props) : bool := page p <? totalPages p - 1.

(** [const hasPreviousPage = index !== 0 || page > 1] *)
Definition hasPreviousPage (p : Props) (s : State) : bool :=
  negb (index s =? 0) || (page p >? 1).

Definition advance (w : World) : World :=
  exec (nextVideo (props w) (state w)) w.

Definition retreat (PER_PAGE : Z) (w : World) : World :=
  exec (previousVideo PER_PAGE (props w) (state w)) w.

End Legacy.

(** ** Sessions of the single-page carousels

    The list of videos is a prop: it may differ from one event to the
    next, as search results come in. *)

Module VideoSession.
Import VideoCarousel.

Section Videos.

Variable Video : Type.

(** The guarded [VideoCarousel] of [src/components/Carousel.tsx]: the
    two navigation handlers and the query change of its overlay. *)
Inductive Event :=
  | Next (videos : list Video)
  | Previous (videos : list Video)
  | QueryChange.

Definition step (s : State) (e : Event) : State :=
  match e with
  | Next videos => nextVideo_guarded Video videos s
  | Previous videos => previousVideo_guarded Video videos s
  | QueryChange => onQueryChange s
  end.

Definition run (es : list Event) (s : State) : State := fold_left step es s.

(** [src/carousel.tsx]: what a render needs.  [videos[index].url], for
    the item of the transition, and [video.title], in [Overlay], read a
    member of [videos[currentVideoIndex]]: when that element is
    undefined the render throws a TypeError.  [None] stands for the
    render that has thrown. *)
Definition element (videos : list Video) (n : number) : option Video :=
  match n with
  | Num z => if z <? 0 then None else videos !! Z.to_nat z
  | NaN => None
  end.

Definition rendered (videos : list Video) (s : State) : option State :=
  match element videos (currentVideoIndex s) with
  | Some _ => Some s
  | None => None
  end.

(** A key, a button or a swipe calls one of the two handlers of the
    last render; the component is then rendered with the new state.
    Nothing follows a render that has thrown. *)
Inductive Key := KeyNext | KeyPrevious.

Definition key (videos : list Video) (s : State) (k : Key) : option State :=
  rendered videos
    match k with
    | KeyNext => nextVideo Video videos s
    | KeyPrevious => previousVideo Video videos s
    end.

(** The component mounted with [videos], then the keys in turn. *)
Definition session (videos : list Video) (ks : list Key) : option State :=
  fold_left (fun o k => match o with
                        | Some s => key videos s k
                        | None => None
                        end)
            ks (rendered videos initial).

End Videos.

End VideoSession.

(** ** The visibility countdown of the overlay, [showOverlay] in
    [src/components/Carousel.tsx] *)

Module Visibility.

Definition overlayTimeout : Z := 2000.

(** [opacity] is the value the spring was last started towards (it
    starts from 0); [timeout] is [timeout.current], the ref that holds
    the id of the last window timeout; [pending] are the window timeouts
    that have neither run nor been cleared, with the time at which they
    run; [next_id] is the id the next [setTimeout] returns. *)
Record Overlay := {
  opacity : Z;
  timeout : option nat;
  pending : list (nat * Z);
  next_id : nat
}.

Definition mounted : Overlay :=
  {| opacity := 0; timeout := None; pending := []; next_id := 1%nat |}.

(** [clearTimeout(timeout.current)]: nothing happens for [undefined] or
    for the id of a timeout that has already run. *)
Definition clearTimeout (id : option nat) (l : list (nat * Z)) : list (nat * Z) :=
  match id with
  | None => l
  | Some i => filter (fun tm => fst tm <> i) l
  end.

(** [showOverlay] *)
Definition showOverlay (t : Z) (o : Overlay) : Overlay :=
  {| opacity := 1;
     timeout := Some (next_id o);
     pending := clearTimeout (timeout o) (pending o)
                  ++ [(next_id o, t + overlayTimeout)];
     next_id := S (next_id o) |}.

(** Time passes up to [t]: the timeouts that have come due run their
    callback, [api.start({opacity: 0})]. *)
Definition elapse (t : Z) (o : Overlay) : Overlay :=
  {| opacity := match filter (fun tm => snd tm <= t) (pending o) with
                | [] => opacity o
                | _ :: _ => 0
                end;
     timeout := timeout o;
     pending := filter (fun tm => t < snd tm) (pending o);
     next_id := next_id o |}.

(** An interaction is anything that calls [showOverlay]: the effect run
    on mount, a mouse move, a click, a key, a change of the input.  A
    render changes nothing here: the id is kept in a ref. *)
Inductive Event :=
  | Interact (t : Z)
  | Render (t : Z).

Definition time (e : Event) : Z :=
  match e with
  | Interact t => t
  | Render t => t
  end.

Definition step (o : Overlay) (e : Event) : Overlay :=
  match e with
  | Interact t => showOverlay t (elapse t o)
  | Render t => elapse t o
  end.

Definition run (es : list Event) (o : Overlay) : Overlay := fold_left step es o.

(** Events in the order of time, none before [now]. *)
Fixpoint ordered (now : Z) (es : list Event) : Prop :=
  match es with
  | [] => True
  | e :: rest => now <= time e /\ ordered (time e) rest
  end.

(** The time of the last event, and of the last interaction. *)
Fixpoint clock (now : Z) (es : list Event) : Z :=
  match es with
  | [] => now
  | e :: rest => clock (time e) rest
  end.

Fixpoint last_interaction (seen : option Z) (es : list Event) : option Z :=
  match es with
  | [] => seen
  | Interact t :: rest => last_interaction (Some t) rest
  | Render _ :: rest => last_interaction seen rest
  end.

(** What holds between two events, [now] being the time of the last
    one and [seen] the time of the last interaction. *)
Definition settled (seen : option Z) (now : Z) (o : Overlay) : Prop :=
  match seen with
  | None => pending o = [] /\ opacity o = 0
  | Some t =>
      (exists id, timeout o = Some id /\
                  pending o = [(id, t + overlayTimeout)] /\
                  opacity o = 1 /\ now < t + overlayTimeout) \/
      (pending o = [] /\ opacity o = 0 /\ t + overlayTimeout <= now)
  end.

End Visibility.

(** ** Typing sessions in the search box *)

Module Typing.
Import Overlay.

Definition time (e : Event) : Z :=
  match e with
  | Change t _ => t
  | Render t => t
  end.

(** Events in the order of time, none before [now]. *)
Fixpoint ordered (now : Z) (es : list Event) : Prop :=
  match es with
  | [] => True
  | e :: rest => now <= time e /\ ordered (time e) rest
  end.

(** The last change of the input among the events, if any. *)
Fixpoint last_change (seen : option (Z * string)) (es : list Event)
    : option (Z * string) :=
  match es with
  | [] => seen
  | Change t value :: rest => last_change (Some (t, value)) rest
  | Render _ :: rest => last_change seen rest
  end.

(** All the timers that are armed, in the order they were armed. *)
Definition armed (o : Overlay) : list Timer :=
  orphaned o ++ match current o with
                | Some tm => [tm]
                | None => []
                end.

(** Timers armed in the order of their deadlines. *)
Fixpoint ascending (l : list Timer) : Prop :=
  match l with
  | [] => True
  | tm :: rest => Forall (fun tm' => deadline tm <= deadline tm') rest
                  /\ ascending rest
  end.

(** What holds of the armed timers once the change [(t, v)] has been
    made and only renders have followed. *)
Definition pending_last (t : Z) (v : string) (o : Overlay) : Prop :=
  (exists pre, armed o = pre ++ [call t v] /\
               Forall (fun tm => deadline tm <= t + wait) pre) \/
  (armed o = [] /\ exists c, committed o = c ++ [(t + wait, v)]).

Definition bounded (now : Z) (o : Overlay) : Prop :=
  Forall (fun tm => deadline tm <= now + wait) (armed o).

End Typing.

(** ** The application shell, [src/App.tsx] *)

Module App.

(** The records of the [GetScenes] query, with the fields it selects.
    Fields the API may leave null are [option]s. *)
Record Performer := { performer_name : string }.
Record Studio := { studio_name : string }.
Record File := { basename : string }.

Record Scene := {
  id : string;
  date : option string;
  performers : list Performer;
  studio : option Studio;
  title : option string;
  files : list File
}.

(** The objects handed to [VideoCarousel]. *)
Record Video := {
  video_url : string;
  video_title : string;
  video_date : option string;
  video_performers : list string;
  video_studio : option string
}.

(** [s || undefined] for a string that may be null: the empty string is
    falsy. *)
Definition or_undefined (s : option string) : option string :=
  match s with
  | Some EmptyString => None
  | other => other
  end.

Section Util.

(** [addApiKey] and [stashUrl] come from [./util], which is not under
    src/: they are parameters. *)
Variable addApiKey : string -> string.
Variable stashUrl : string.

(** The body of the [map] callback.  [None] stands for the [TypeError]
    of [video.files[0].basename] when there is no file; that member is
    only read when the title is falsy. *)
Definition toVideo (video : Scene) : option Video :=
  let url := addApiKey (stashUrl ++ "/scene/" ++ id video ++ "/stream")%string in
  match
    match or_undefined (title video) with
    | Some t => Some t
    | None => match files video with
              | f :: _ => Some (basename f)
              | [] => None
              end
    end
  with
  | None => None
  | Some t =>
      Some {| video_url := url;
              video_title := t;
              video_date := or_undefined (date video);
              video_performers := map performer_name (performers video);
              video_studio := or_undefined (option_map studio_name (studio video)) |}
  end.

(** [data?.findScenes.scenes.map(...)]: [data] is undefined while the
    query is loading.  The outer [None] is an exception thrown by the
    callback, the inner one is [undefined]. *)
Definition videos (data : option (list Scene)) : option (option (list Video)) :=
  match data with
  | None => Some None
  | Some scenes => option_map Some (mapM toVideo scenes)
  end.

(** [videos={videos || []}] *)
Definition videos_prop (data : option (list Scene)) : option (list Video) :=
  option_map (fun v => match v with Some l => l | None => [] end) (videos data).

End Util.

(** A scene the callback cannot name: no title to speak of and no
    file. *)
Definition nameless (video : Scene) : Prop :=
  or_undefined (title video) = None /\ files video = [].

(** The [query] state of [App] and the timers of [setQueryInUrl]:
    [const setQueryInUrl = debounce(..., 500)] is a statement of the
    body of [App], so each render has a debounced function of its own,
    as in the overlay.  The debounced function is the one of the
    package ts-debounce, which is not under src/; called with a delay
    only, it fires on the trailing edge like the [Overlay.Timer]
    above.  [Overlay.committed] records the calls of [navigate]. *)
Record App := {
  query : string;
  url : Overlay.Overlay
}.

Definition mounted (q : string) : App :=
  {| query := q; url := Overlay.mounted |}.

(** [setQueryInUrlAndState], called at time [t]: [setQuery(query)], then
    [setQueryInUrl(query)] through the function of the current render.
    When the state changes the component is rendered again before the
    next event. *)
Definition setQueryInUrlAndState (t : Z) (text : string) (a : App) : App :=
  let armed := Overlay.onChange t text (Overlay.elapse t (url a)) in
  {| query := text;
     url := if String.eqb text (query a) then armed else Overlay.render armed |}.

Definition calls (l : list (Z * string)) (a : App) : App :=
  fold_left (fun a c => setQueryInUrlAndState (fst c) (snd c) a) l a.

(** The navigations a sequence of calls produces in the end. *)
Definition navigations (a : App) : list (Z * string) :=
  Overlay.committed (Overlay.quiesce (url a)).

(** Calls in the order of time, each with a text other than the query
    of the moment. *)
Fixpoint fresh (now : Z) (q : string) (l : list (Z * string)) : Prop :=
  match l with
  | [] => True
  | (t, text) :: rest => now <= t /\ text <> q /\ fresh t text rest
  end.

End App.

(** ** The query in the address bar

    [navigate] is given [`?q=${encodeURIComponent(query)}`] by
    [setQueryInUrl] (in [src/App.tsx] and in the overlay), and the
    query is read back with [searchParams.get("q")], the empty string
    standing in for a missing parameter.  A string stands for the UTF-8
    bytes of the JavaScript string. *)

Module Url.
Import Ascii.
Local Open Scope char_scope.

(** The characters [encodeURIComponent] leaves alone: letters, digits
    and [- _ . ! ~ * ' ( )]. *)
Definition unreserved (c : ascii) : bool :=
  let n := N_of_ascii c in
  ((65 <=? n) && (n <=? 90))%N || ((97 <=? n) && (n <=? 122))%N
  || ((48 <=? n) && (n <=? 57))%N
  || existsb (Ascii.eqb c) ["-"; "_"; "."; "!"; "~"; "*"; "'"; "("; ")"].

(** A hexadecimal digit, upper case as [encodeURIComponent] writes
    them, and the value of a digit of either case. *)
Definition hex (n : N) : ascii :=
  if (n <? 10)%N then ascii_of_N (48 + n) else ascii_of_N (55 + n).

Definition unhex (c : ascii) : option N :=
  let n := N_of_ascii c in
  if ((48 <=? n) && (n <=? 57))%N then Some (n - 48)%N
  else if ((65 <=? n) && (n <=? 70))%N then Some (n - 55)%N
  else if ((97 <=? n) && (n <=? 102))%N then Some (n - 87)%N
  else None.

(** [encodeURIComponent]: every other byte becomes [%XX]. *)
Fixpoint encodeURIComponent (s : string) : string :=
  match s with
  | EmptyString => EmptyString
  | String c rest =>
      if unreserved c then String c (encodeURIComponent rest)
      else String "%" (String (hex (N_of_ascii c / 16))
                         (String (hex (N_of_ascii c mod 16))
                            (encodeURIComponent rest)))
  end.

(** The argument of [navigate]. *)
Definition search_of (query : string) : string :=
  String "?" (String "q" (String "=" (encodeURIComponent query))).

(** [URLSearchParams]: the string is cut at every [&], each piece at
    its first [=]; in names and values [+] stands for a space and [%XX]
    for a byte; a [%] that is not followed by two digits stays. *)
Fixpoint split_on (sep : ascii) (s : string) : list string :=
  match s with
  | EmptyString => [EmptyString]
  | String c rest =>
      if Ascii.eqb c sep then EmptyString :: split_on sep rest
      else match split_on sep rest with
           | piece :: pieces => String c piece :: pieces
           | [] => [String c EmptyString]
           end
  end.

Fixpoint cut (s : string) : string * string :=
  match s with
  | EmptyString => (EmptyString, EmptyString)
  | String c rest =>
      if Ascii.eqb c "=" then (EmptyString, rest)
      else let (name, value) := cut rest in (String c name, value)
  end.

Fixpoint plus_to_space (s : string) : string :=
  match s with
  | EmptyString => EmptyString
  | String c rest =>
      String (if Ascii.eqb c "+" then " " else c) (plus_to_space rest)
  end.

Fixpoint percent_decode (s : string) : string :=
  match s with
  | EmptyString => EmptyString
  | String c rest =>
      if Ascii.eqb c "%" then
        match rest with
        | String a (String b rest') =>
            match unhex a, unhex b with
            | Some x, Some y =>
                String (ascii_of_N (16 * x + y)) (percent_decode rest')
            | _, _ => String c (percent_decode rest)
            end
        | _ => String c (percent_decode rest)
        end
      else String c (percent_decode rest)
  end.

Definition decode (s : string) : string := percent_decode (plus_to_space s).

Definition not_empty (s : string) : bool :=
  match s with
  | EmptyString => false
  | String _ _ => true
  end.

Definition parse (search : string) : list (string * string) :=
  let body := match search with
              | String "?" rest => rest
              | other => other
              end in
  map (fun piece => let (name, value) := cut piece in (decode name, decode value))
      (List.filter not_empty (split_on "&" body)).

(** [searchParams.get(name)]: the first value with that name. *)
Fixpoint get (name : string) (params : list (string * string)) : option string :=
  match params with
  | [] => None
  | (n, v) :: rest => if String.eqb n name then Some v else get name rest
  end.

(** [searchParams.get("q")], or the empty string when that is null. *)
Definition initial_query (search : string) : string :=
  match get "q" (parse search) with
  | Some v => v
  | None => EmptyString
  end.

(** The characters the encoding never produces bare. *)
Definition plain (c : ascii) : bool :=
  negb (Ascii.eqb c "&") && negb (Ascii.eqb c "=") && negb (Ascii.eqb c "+").

Fixpoint all_plain (s : string) : bool :=
  match s with
  | EmptyString => true
  | String c rest => plain c && all_plain rest
  end.

Fixpoint free_of (x : ascii) (s : string) : bool :=
  match s with
  | EmptyString => true
  | String c rest => negb (Ascii.eqb c x) && free_of x rest
  end.

End Url.

(** ** Properties of the paged carousel *)

Module NavigationFacts.
Import Carousel.

(** *** Running handler bodies *)

Lemma state_exec body : forall w, state (exec body w) = run_state body (state w).
Proof.
  induction body as [|[c|n|d|n] k IH]; intros w; simpl; try reflexivity;
    rewrite IH; reflexivity.
Qed.

Lemma props_exec body : forall w, props (exec body w) = props w.
Proof.
  induction body as [|[c|n|d|n] k IH]; intros w; simpl; try reflexivity;
    rewrite IH; reflexivity.
Qed.

Lemma generation_exec body : forall w, generation (exec body w) = generation w.
Proof.
  induction body as [|[c|n|d|n] k IH]; intros w; simpl; try reflexivity;
    rewrite IH; reflexivity.
Qed.

(** A body that begins with [Await] only adds its request. *)
Lemma exec_await c k w :
  exec (Await c :: k) w =
  with_in_flight (in_flight w ++ [{| target := requested_page c (props w);
                                     tag := generation w;
                                     resume := k |}]) w.
Proof. reflexivity. Qed.

Lemma in_flight_exec_sync body :
  awaits body = false -> forall w, in_flight (exec body w) = in_flight w.
Proof.
  induction body as [|[c|n|d|n] k IH]; simpl; intros H w;
    try discriminate; try reflexivity; rewrite IH; auto.
Qed.

Lemma awaits_notify p n : awaits (notify p n) = false.
Proof. unfold notify. destruct (onItemChange p); reflexivity. Qed.

Lemma run_state_notify p n s : run_state (notify p n) s = s.
Proof. unfold notify. destruct (onItemChange p); reflexivity. Qed.

(** *** What [nextItem] and [previousItem] do, case by case *)

Lemma nextItem_disabled p s :
  hasNextItem p s = false -> nextItem p s = [].
Proof. unfold nextItem. intros ->. reflexivity. Qed.

Lemma nextItem_crossing p s :
  index s + 1 = items_length p - 1 -> page p < totalPages p - 1 ->
  nextItem p s = Await OnNextPage :: SetIndex 0 :: SetDirection 1 :: notify p 0.
Proof.
  intros Hi Hp. unfold nextItem, hasNextItem.
  assert ((page p <? totalPages p - 1) = true) as -> by (apply Z.ltb_lt; lia).
  rewrite orb_true_r. simpl.
  assert ((index s + 1 =? items_length p - 1) = true) as -> by (apply Z.eqb_eq; lia).
  reflexivity.
Qed.

Lemma nextItem_local p s :
  hasNextItem p s = true ->
  index s + 1 <> items_length p - 1 \/ totalPages p - 1 <= page p ->
  nextItem p s =
  SetIndex (index s + 1) :: SetDirection 1 :: notify p (index s + 1).
Proof.
  intros Hn Hl. unfold nextItem. rewrite Hn. simpl.
  destruct Hl as [Hl|Hl].
  - apply Z.eqb_neq in Hl. rewrite Hl. reflexivity.
  - assert ((page p <? totalPages p - 1) = false) as -> by (apply Z.ltb_ge; lia).
    rewrite andb_false_r. reflexivity.
Qed.

Lemma previousItem_disabled PER_PAGE p s :
  hasPreviousItem p s = false -> previousItem PER_PAGE p s = [].
Proof. unfold previousItem. intros ->. reflexivity. Qed.

Lemma previousItem_crossing PER_PAGE p s :
  index s = 0 -> 1 < page p ->
  previousItem PER_PAGE p s =
  Await OnPreviousPage :: SetIndex (PER_PAGE - 1) :: SetDirection (-1)
    :: notify p (PER_PAGE - 1).
Proof.
  intros Hi Hp. unfold previousItem, hasPreviousItem. rewrite Hi.
  assert ((page p >? 1) = true) as -> by (apply Z.gtb_lt; lia).
  reflexivity.
Qed.

Lemma previousItem_local PER_PAGE p s :
  0 < index s ->
  previousItem PER_PAGE p s =
  SetIndex (index s - 1) :: SetDirection (-1) :: notify p (index s - 1).
Proof.
  intros Hi. unfold previousItem, hasPreviousItem.
  assert ((index s =? 0) = false) as -> by (apply Z.eqb_neq; lia).
  simpl.
  assert ((index s - 1 <? 0) = false) as -> by (apply Z.ltb_ge; lia).
  reflexivity.
Qed.

(** At the last item of a page the crossing test of [nextItem] compares
    [index + 1] with [items.length - 1]: it cannot hold, so no page is
    ever requested from there. *)
Lemma advance_at_last_item_never_fetches w :
  index (state w) + 1 = items_length (props w) ->
  in_flight (advance w) = in_flight w.
Proof.
  intros Hlast. unfold advance, nextItem.
  destruct (hasNextItem (props w) (state w)); simpl; [|reflexivity].
  assert ((index (state w) + 1 =? items_length (props w) - 1) = false) as ->
    by (apply Z.eqb_neq; lia).
  simpl. rewrite in_flight_exec_sync; [reflexivity | apply awaits_notify].
Qed.

(** Every handler either stops before any effect, starts with its page
    request, or never awaits. *)
Lemma handler_shape PER_PAGE nav p s :
  (exists c k, handler PER_PAGE nav p s = Await c :: k) \/
  awaits (handler PER_PAGE nav p s) = false.
Proof.
  destruct nav; simpl.
  - unfold nextItem. destruct (negb (hasNextItem p s)); [right; reflexivity|].
    destruct ((index s + 1 =? items_length p - 1) && (page p <? totalPages p - 1)).
    + left. eauto.
    + right. simpl. apply awaits_notify.
  - unfold previousItem. destruct (negb (hasPreviousItem p s)); [right; reflexivity|].
    destruct (index s - 1 <? 0).
    + left. eauto.
    + right. simpl. apply awaits_notify.
Qed.

(** The handlers never read the requests in flight: with other requests
    pending a call does to the cursor what it does with none, and adds
    the requests it would add. *)
Lemma request_ignores_in_flight PER_PAGE nav w l :
  state (request PER_PAGE nav (with_in_flight l w)) = state (request PER_PAGE nav w) /\
  exists issued,
    in_flight (request PER_PAGE nav w) = in_flight w ++ issued /\
    in_flight (request PER_PAGE nav (with_in_flight l w)) = l ++ issued.
Proof.
  unfold request. simpl. split.
  - rewrite !state_exec. reflexivity.
  - destruct (handler_shape PER_PAGE nav (props w) (state w)) as [(c & k & ->)|Hs].
    + rewrite !exec_await. simpl. eauto.
    + exists []. rewrite !in_flight_exec_sync by exact Hs. simpl.
      rewrite !app_nil_r. auto.
Qed.

(** With a page size of at least one the handlers never set a negative
    index. *)
Lemma handler_sets_nonnegative_index PER_PAGE nav p s n :
  1 <= PER_PAGE -> 0 <= index s ->
  In (SetIndex n) (handler PER_PAGE nav p s) -> 0 <= n.
Proof.
  intros Hpp Hi Hin. destruct nav; simpl in Hin.
  - unfold nextItem, notify in Hin.
    destruct (negb (hasNextItem p s)); [contradiction|].
    destruct (_ && _), (onItemChange p); simpl in Hin;
      repeat (destruct Hin as [Hin|Hin]; [inversion Hin; lia|]);
      try contradiction.
  - unfold previousItem, notify in Hin.
    destruct (negb (hasPreviousItem p s)); [contradiction|].
    destruct (Z.ltb_spec (index s - 1) 0), (onItemChange p); simpl in Hin;
      repeat (destruct Hin as [Hin|Hin]; [inversion Hin; lia|]);
      try contradiction.
Qed.

(** [hasPreviousItem] agrees with the specification's [hasPrevious] on
    every cursor that is not negative. *)
Lemma hasPreviousItem_spec p s :
  0 <= index s -> hasPreviousItem p s = spec_hasPrevious p s.
Proof.
  intros Hi. unfold hasPreviousItem, spec_hasPrevious. f_equal.
  rewrite Z.gtb_ltb.
  destruct (Z.eqb_spec (index s) 0) as [E|E]; simpl; symmetry.
  - apply Z.ltb_ge. lia.
  - apply Z.ltb_lt. lia.
Qed.

(** [hasNextItem] is the specification's [hasNext] of a collection with
    one page less. *)
Lemma hasNextItem_implies_spec p s :
  hasNextItem p s = true -> spec_hasNext p s = true.
Proof.
  unfold hasNextItem, spec_hasNext. intros H.
  apply orb_true_iff in H. apply orb_true_iff.
  destruct H as [H|H]; [left; exact H|right].
  apply Z.ltb_lt in H. apply Z.ltb_lt. lia.
Qed.

(** A move inside the page, made from a cursor that does not trigger the
    crossing test, is undone by [previousItem] and requests no page. *)
Lemma local_round_trip PER_PAGE w :
  0 < index (state w) < items_length (props w) - 1 ->
  index (state w) + 1 <> items_length (props w) - 1 \/
    totalPages (props w) - 1 <= page (props w) ->
  index (state (retreat PER_PAGE (advance w))) = index (state w) /\
  in_flight (retreat PER_PAGE (advance w)) = in_flight w.
Proof.
  intros [Hlo Hhi] Hloc.
  assert (hasNextItem (props w) (state w) = true) as Hn.
  { unfold hasNextItem. apply orb_true_iff. left. apply Z.ltb_lt. lia. }
  assert (Hadv : advance w =
            exec (SetIndex (index (state w) + 1) :: SetDirection 1
                    :: notify (props w) (index (state w) + 1)) w).
  { unfold advance. rewrite nextItem_local by assumption. reflexivity. }
  assert (Hst : state (advance w) =
            setDirection 1 (setIndex (index (state w) + 1) (state w))).
  { rewrite Hadv, state_exec. simpl. apply run_state_notify. }
  assert (Hfl : in_flight (advance w) = in_flight w).
  { rewrite Hadv. apply in_flight_exec_sync. simpl. apply awaits_notify. }
  unfold retreat. rewrite previousItem_local by (rewrite Hst; simpl; lia).
  rewrite state_exec, in_flight_exec_sync by (simpl; apply awaits_notify).
  simpl. rewrite run_state_notify, Hst, Hfl. simpl. split; [lia|reflexivity].
Qed.

(** *** The claims *)

(** C1, boundary-crossing advance.  The specification expects that at
    the last item of page 1 of 2 (40 items, index 39) [advance] fetches
    page 2 and lands on index 0.  In the code [hasNextItem] is false
    there and [nextItem] returns at once: no request, no change.  With
    a third page behind it the same cursor moves to index 40, past the
    end of the page, again without a request. *)
Theorem advance_at_end_of_page_does_not_cross :
  let w := idle (page_of 40 1 2) (cursor 39 1) in
  let w3 := idle (page_of 40 1 3) (cursor 39 1) in
  (hasNextItem (props w) (state w) = false /\ advance w = w) /\
  (in_flight (advance w3) = [] /\ index (state (advance w3)) = 40 /\
   currentItem (props (advance w3)) (state (advance w3)) = None).
Proof. vm_compute. repeat split. Qed.

(** C2, derived navigability flags.  At index 39 of 40 on page 1 of 2
    the specification's [hasNext] is true and the code's [hasNextItem]
    is false: the code compares [page] with [totalPages - 1]. *)
Theorem hasNextItem_misses_the_last_page :
  let p := page_of 40 1 2 in
  let s := cursor 39 1 in
  spec_hasNext p s = true /\ hasNextItem p s = false /\
  hasPreviousItem p s = spec_hasPrevious p s.
Proof. vm_compute. repeat split. Qed.

(** C3, reentrancy.  The claim fails at the second-to-last item of page
    1 of 3: the first [advance] leaves one fetch pending, the second is
    not a no-op and puts a second fetch for the same page in flight;
    when both are answered the cursor update and the notification are
    made twice. *)
Lemma second_advance_is_not_rejected :
  let w := advance (idle (page_of 40 1 3) (cursor 38 1)) in
  map target (in_flight w) = [2] /\
  advance w <> w /\
  map target (in_flight (advance w)) = [2; 2] /\
  notified (settle 0 (Loaded (repeat clip 40) 3 120)
             (settle 0 (Loaded (repeat clip 40) 3 120) (advance w))) = [0; 0].
Proof.
  vm_compute. repeat split. discriminate.
Qed.

(** C3 as the code has it: the component keeps no fetching state.  When
    a navigation request has opened a page fetch [r], the cursor and the
    props are as before, and the same request made again while [r] is
    pending is carried out like the first: a second, identical fetch is
    in flight. *)
Theorem pending_fetch_does_not_block PER_PAGE nav w r :
  in_flight (request PER_PAGE nav w) = in_flight w ++ [r] ->
  state (request PER_PAGE nav w) = state w /\
  props (request PER_PAGE nav w) = props w /\
  in_flight (request PER_PAGE nav (request PER_PAGE nav w))
    = in_flight w ++ [r; r].
Proof.
  intros Hr. unfold request in *.
  destruct (handler_shape PER_PAGE nav (props w) (state w)) as [(c & k & E)|Hs].
  - rewrite E in *. rewrite exec_await in *. simpl in *.
    apply app_inj_tail in Hr as [_ <-].
    rewrite E, exec_await. simpl. rewrite <- app_assoc. auto.
  - rewrite in_flight_exec_sync in Hr by exact Hs.
    apply (f_equal length) in Hr. rewrite length_app in Hr. simpl in Hr. lia.
Qed.

Lemma pending_fetch_does_not_block_witness :
  let w := idle (page_of 40 1 3) (cursor 38 1) in
  let r := {| target := 2; tag := 0%nat;
              resume := [SetIndex 0; SetDirection 1; OnItemChange 0] |} in
  state (request 40 Advance w) = state w /\
  props (request 40 Advance w) = props w /\
  in_flight (request 40 Advance (request 40 Advance w)) = in_flight w ++ [r; r].
Proof.
  intros w r. apply (pending_fetch_does_not_block 40 Advance w r). reflexivity.
Defined.

(** C4, query reset.  The claim fails twice.  At page 3, index 17,
    moving backward, the committed query leaves the direction backward.
    And a previous-page fetch opened at index 0 of page 3 outlives the
    commit: the first page of the new query is loaded, then the stale
    fetch is answered, and although the Page Store drops its payload the
    rest of [previousItem] runs and puts the cursor at index 39,
    backward, on the new first page. *)
Lemma query_commit_does_not_detach_pending_fetch :
  let first := Loaded (repeat clip 40) 2 80 in
  let stale := Loaded (repeat clip 40) 5 200 in
  direction (state (commitQuery "x" (idle (page_of 40 3 5) (cursor 17 (-1))))) = -1 /\
  let w := commitQuery "x" (retreat 40 (idle (page_of 40 3 5) (cursor 0 1))) in
  index (state w) = 0 /\ map target (in_flight w) = [2; 1] /\
  let w' := settle 0 stale (settle 1 first w) in
  page (props w') = 1 /\ index (state w') = 39 /\ direction (state w') = -1 /\
  notified w' = [39].
Proof. vm_compute. repeat split. Qed.

(** C4 as the code has it.  A committed query sets [index = 0] and
    leaves the direction, the props and the pending fetches as they are;
    the query text goes to the location and the first page of the new
    query is requested, which on success makes the page number 1.  A
    fetch that was pending at the commit is not detached: when it is
    answered, the rest of its handler runs on the reset cursor. *)
Theorem query_commit_resets_index_only text w :
  let w' := commitQuery text w in
  index (state w') = 0 /\
  direction (state w') = direction (state w) /\
  props w' = props w /\
  location_q w' = text /\
  in_flight w' = in_flight w ++ [{| target := 1; tag := generation w';
                                   resume := [] |}] /\
  (forall its pages results,
     let w1 := settle (length (in_flight w)) (Loaded its pages results) w' in
     page (props w1) = 1 /\ items (props w1) = its /\ state w1 = state w') /\
  (forall i r its pages results,
     in_flight w !! i = Some r ->
     state (settle i (Loaded its pages results) w')
       = run_state (resume r) (setIndex 0 (state w))).
Proof.
  cbv zeta. split_and!; try reflexivity.
  - intros its pages results. unfold settle. simpl.
    rewrite lookup_app_r by lia. rewrite Nat.sub_diag. simpl.
    unfold replace_page. simpl. rewrite Nat.eqb_refl. simpl. auto.
  - intros i r its pages results Hi. unfold settle. simpl.
    rewrite lookup_app_l by (eapply lookup_lt_Some; exact Hi).
    rewrite Hi. rewrite state_exec. f_equal.
    unfold replace_page. simpl. destruct (Nat.eqb _ _); reflexivity.
Qed.

Lemma query_commit_resets_index_only_witness :
  let w := retreat 40 (idle (page_of 40 3 5) (cursor 0 1)) in
  let w' := commitQuery "x" w in
  index (state w') = 0 /\ direction (state w') = 1 /\
  state (settle 0 (Loaded (repeat clip 40) 5 200) w')
    = {| index := 39; direction := -1; crop := false |}.
Proof.
  intros w w'.
  destruct (query_commit_resets_index_only "x" w) as (H0 & Hd & _ & _ & _ & _ & Hs).
  split; [exact H0|]. split; [exact Hd|].
  exact (Hs 0%nat _ (repeat clip 40) 5 200 eq_refl).
Defined.

(** C5, backward boundary crossing.  At index 0 of a page after the
    first, [retreat] changes nothing but the requests in flight: it adds
    one fetch, for page [page - 1].  When that fetch succeeds the Page
    is replaced by the fetched one, the index is [PER_PAGE - 1] and the
    direction is backward. *)
Theorem retreat_crosses_to_previous_page PER_PAGE w :
  index (state w) = 0 ->
  1 < page (props w) ->
  let r := {| target := page (props w) - 1; tag := generation w;
              resume := SetIndex (PER_PAGE - 1) :: SetDirection (-1)
                          :: notify (props w) (PER_PAGE - 1) |} in
  retreat PER_PAGE w = with_in_flight (in_flight w ++ [r]) w /\
  forall its pages results,
    let w' := settle (length (in_flight w)) (Loaded its pages results)
                (retreat PER_PAGE w) in
    items (props w') = its /\
    page (props w') = page (props w) - 1 /\
    totalPages (props w') = pages /\
    totalResults (props w') = results /\
    index (state w') = PER_PAGE - 1 /\
    direction (state w') = -1 /\
    in_flight w' = in_flight w.
Proof.
  intros Hi Hp r.
  assert (Hret : retreat PER_PAGE w = with_in_flight (in_flight w ++ [r]) w).
  { unfold retreat. rewrite previousItem_crossing by assumption.
    apply exec_await. }
  split; [exact Hret|].
  intros its pages results. cbv zeta. rewrite Hret. unfold settle. simpl.
  rewrite lookup_app_r by lia. rewrite Nat.sub_diag. simpl.
  assert (Hdel : delete (length (in_flight w)) (in_flight w ++ [r]) = in_flight w).
  { clear. induction (in_flight w) as [|x l IH]; simpl; [reflexivity|].
    f_equal. exact IH. }
  rewrite Hdel. unfold replace_page. simpl. rewrite Nat.eqb_refl.
  rewrite props_exec, state_exec, in_flight_exec_sync
    by (simpl; apply awaits_notify).
  simpl. rewrite run_state_notify. simpl. auto 10.
Qed.

Lemma retreat_crosses_to_previous_page_witness :
  let w := idle (page_of 40 2 3) (cursor 0 1) in
  let w' := settle 0 (Loaded (repeat clip 40) 3 120) (retreat 40 w) in
  map target (in_flight (retreat 40 w)) = [1] /\
  page (props w') = 1 /\ index (state w') = 39 /\ direction (state w') = -1.
Proof.
  intros w w'.
  assert (H0 : index (state w) = 0) by reflexivity.
  assert (H1 : 1 < page (props w)) by (simpl; lia).
  destruct (retreat_crosses_to_previous_page 40 w H0 H1) as [Hret Hall].
  destruct (Hall (repeat clip 40) 3 120) as (_ & Hpg & _ & _ & Hix & Hdir & _).
  split; [rewrite Hret; reflexivity|].
  split; [exact Hpg|]. split; [exact Hix|exact Hdir].
Defined.

(** C6, local move round trip.  At index 38 of 40 on page 1 of 3, a
    cursor strictly inside the page, [advance] requests page 2 instead
    of moving to item 39.  After the answer the cursor is at index 0 of
    page 2; [retreat] then requests page 1 and lands on index 39: two
    fetches, and not the index the round trip started from. *)
Theorem round_trip_from_second_to_last_item_fetches :
  let answer := Loaded (repeat clip 40) 3 120 in
  let w := idle (page_of 40 1 3) (cursor 38 1) in
  (0 < index (state w) < items_length (props w) - 1) /\
  map target (in_flight (advance w)) = [2] /\
  let w1 := settle 0 answer (advance w) in
  (page (props w1) = 2 /\ index (state w1) = 0) /\
  map target (in_flight (retreat 40 w1)) = [1] /\
  let w2 := settle 0 answer (retreat 40 w1) in
  page (props w2) = 1 /\ index (state w2) = 39.
Proof. vm_compute. repeat split. Qed.

(** C7, no-op at the edges of the collection.  At index 0 of page 1
    [hasPreviousItem] is false and [retreat] leaves the world as it is;
    at the last index of the last page [hasNextItem] is false and
    [advance] leaves the world as it is: no request, no state change,
    no notification. *)
Theorem edges_are_noops PER_PAGE (w_first w_last : World) :
  index (state w_first) = 0 ->
  page (props w_first) = 1 ->
  index (state w_last) = items_length (props w_last) - 1 ->
  page (props w_last) = totalPages (props w_last) ->
  (hasPreviousItem (props w_first) (state w_first) = false /\
   retreat PER_PAGE w_first = w_first) /\
  (hasNextItem (props w_last) (state w_last) = false /\
   advance w_last = w_last).
Proof.
  intros Hi Hp Hl Ht.
  assert (Hprev : hasPreviousItem (props w_first) (state w_first) = false).
  { unfold hasPreviousItem. rewrite Hi, Hp. reflexivity. }
  assert (Hnext : hasNextItem (props w_last) (state w_last) = false).
  { unfold hasNextItem. rewrite Hl, Ht. apply orb_false_iff.
    split; apply Z.ltb_ge; lia. }
  split; (split; [assumption|]).
  - unfold retreat. rewrite previousItem_disabled by exact Hprev. reflexivity.
  - unfold advance. rewrite nextItem_disabled by exact Hnext. reflexivity.
Qed.

Lemma edges_are_noops_witness :
  let w_first := idle (page_of 40 1 2) (cursor 0 1) in
  let w_last := idle (page_of 40 2 2) (cursor 39 1) in
  (hasPreviousItem (props w_first) (state w_first) = false /\
   retreat 40 w_first = w_first) /\
  (hasNextItem (props w_last) (state w_last) = false /\
   advance w_last = w_last).
Proof.
  intros w_first w_last.
  apply (edges_are_noops 40 w_first w_last); reflexivity.
Defined.





End NavigationFacts.

(** ** Properties of the debounced query commit *)

Module DebounceFacts.
Import Overlay.

Lemma last_default {A} (x : A) l d d' :
  List.last (x :: l) d = List.last (x :: l) d'.
Proof.
  revert x. induction l as [|y l IH]; intros x; [reflexivity|].
  change (List.last (y :: l) d = List.last (y :: l) d'). apply IH.
Qed.

Lemma run_cons e es o : run (e :: es) o = run es (step o e).
Proof. reflexivity. Qed.

(** While changes keep coming within the quiet interval, and the
    component is not rendered again, nothing fires: the one armed timer
    is moved to the last change. *)
Lemma run_burst l : forall prev v c,
  burst prev l ->
  run (changes l) {| current := Some (call prev v); orphaned := [];
                     committed := c |}
  = {| current := Some (call (fst (List.last l (prev, v))) (snd (List.last l (prev, v))));
       orphaned := []; committed := c |}.
Proof.
  induction l as [|[t v'] rest IH]; intros prev v c Hb.
  - reflexivity.
  - destruct Hb as [Ht Hrest].
    change (changes ((t, v') :: rest)) with (Change t v' :: changes rest).
    rewrite run_cons.
    assert (Hstep : step {| current := Some (call prev v); orphaned := [];
                            committed := c |} (Change t v')
                    = {| current := Some (call t v'); orphaned := [];
                         committed := c |}).
    { unfold step, elapse, onChange, due. simpl.
      assert ((prev + wait <=? t) = false) as -> by (apply Z.leb_gt; lia).
      simpl. rewrite app_nil_r. reflexivity. }
    rewrite Hstep, (IH t v' c Hrest).
    destruct rest as [|x rest']; [reflexivity|].
    change (List.last ((t, v') :: x :: rest') (prev, v))
      with (List.last (x :: rest') (prev, v)).
    rewrite (last_default x rest' (t, v') (prev, v)). reflexivity.
Qed.

(** Within one render a burst is committed once, with its last value,
    one quiet interval after its last change. *)
Lemma burst_commits_once t0 v0 l :
  burst t0 l ->
  commits (changes ((t0, v0) :: l))
  = [(fst (List.last l (t0, v0)) + wait, snd (List.last l (t0, v0)))].
Proof.
  intros Hb. unfold commits.
  change (changes ((t0, v0) :: l)) with (Change t0 v0 :: changes l).
  rewrite run_cons.
  change (step mounted (Change t0 v0))
    with {| current := Some (call t0 v0); orphaned := []; committed := [] |}.
  rewrite (run_burst l t0 v0 [] Hb). reflexivity.
Qed.

(** Five changes less than 100ms apart, in one render. *)
Lemma five_changes_one_commit :
  commits [Change 0 "s"; Change 80 "st"; Change 170 "sta";
           Change 260 "stas"; Change 350 "stash"]
  = [(850, "stash"%string)].
Proof. reflexivity. Qed.

(** C9, debounce coalescing.  Two changes 300ms apart with a render of
    the overlay between them are committed twice: the render makes a
    new debounced function for the input, and the timer armed through
    the old one still fires, with the value it was last given. *)
Theorem render_inside_burst_commits_twice :
  burst 0 [(300, "ab"%string)] /\
  commits [Change 0 "a"; Change 300 "ab"] = [(800, "ab"%string)] /\
  commits [Change 0 "a"; Render 250; Change 300 "ab"]
  = [(500, "a"%string); (800, "ab"%string)].
Proof.
  split; [|split; reflexivity].
  simpl. unfold wait. lia.
Qed.

End DebounceFacts.

(** ** Properties of the single-page carousels *)

Module VideoFacts.
Import VideoCarousel.

(** From an index that is not negative both handlers stay inside the
    list. *)
Lemma nextVideo_in_range {Video} (videos : list Video) i s :
  videos <> [] -> 0 <= i -> currentVideoIndex s = Num i ->
  exists j, currentVideoIndex (nextVideo Video videos s) = Num j /\
            0 <= j < Z.of_nat (length videos).
Proof.
  intros Hne Hi Hs. destruct videos as [|v vs]; [contradiction|].
  unfold nextVideo, setDirection, setCurrentVideoIndex, videos_length. simpl.
  rewrite Hs. simpl.
  eexists. split; [reflexivity|].
  rewrite Z.rem_mod_nonneg by lia. apply Z.mod_pos_bound. lia.
Qed.

(** C10, wrap-around in the single-page carousel.  For a non-empty list
    and an index that is not negative, [nextVideo] of either variant
    sets the index to [(index + 1) mod videos.length] and the direction
    to 1, so from the last video it goes to index 0; [previousVideo] of
    either variant goes from index 0 to index [videos.length - 1]; with
    an empty list the guarded handlers return the state unchanged. *)
Theorem video_carousel_wraps {Video} (videos : list Video) (i : Z) (s : State) :
  videos <> [] ->
  0 <= i ->
  currentVideoIndex s = Num i ->
  let n := Z.of_nat (length videos) in
  (nextVideo Video videos s
     = {| currentVideoIndex := Num ((i + 1) mod n); direction := 1;
          cropVideo := cropVideo s |} /\
   nextVideo_guarded Video videos s = nextVideo Video videos s) /\
  (i = n - 1 -> currentVideoIndex (nextVideo Video videos s) = Num 0) /\
  (i = 0 ->
   previousVideo Video videos s
     = {| currentVideoIndex := Num (n - 1); direction := -1;
          cropVideo := cropVideo s |} /\
   previousVideo_guarded Video videos s = previousVideo Video videos s) /\
  (nextVideo_guarded Video [] s = s /\ previousVideo_guarded Video [] s = s).
Proof.
  intros Hne Hi Hs n.
  destruct videos as [|v vs]; [contradiction|].
  assert (Hn : 0 < n) by (subst n; simpl; lia).
  assert (Hnz : (Z.of_nat (length (v :: vs)) =? 0) = false)
    by (apply Z.eqb_neq; fold n; lia).
  assert (Hnext : nextVideo Video (v :: vs) s
            = {| currentVideoIndex := Num ((i + 1) mod n); direction := 1;
                 cropVideo := cropVideo s |}).
  { unfold nextVideo, setDirection, setCurrentVideoIndex, videos_length.
    rewrite Hs. unfold add, rem. rewrite Hnz.
    rewrite Z.rem_mod_nonneg by (fold n; lia). reflexivity. }
  split_and!.
  - exact Hnext.
  - reflexivity.
  - intros ->. rewrite Hnext. simpl.
    replace (n - 1 + 1) with n by lia. rewrite Z.mod_same by lia. reflexivity.
  - intros ->. split; [|reflexivity].
    unfold previousVideo, setDirection, setCurrentVideoIndex, videos_length.
    rewrite Hs. unfold add, rem, max. rewrite Hnz. fold n.
    replace (0 + -1 + n) with (n - 1) by lia.
    rewrite Z.rem_mod_nonneg by lia. rewrite Z.mod_small by lia.
    rewrite Z.max_r by lia. reflexivity.
  - reflexivity.
  - reflexivity.
Qed.

Lemma video_carousel_wraps_witness :
  let videos := ["a"; "b"; "c"]%string in
  let s := {| currentVideoIndex := Num 2; direction := -1; cropVideo := false |} in
  nextVideo string videos s
    = {| currentVideoIndex := Num 0; direction := 1; cropVideo := false |} /\
  nextVideo_guarded string videos s = nextVideo string videos s.
Proof.
  intros videos s.
  assert (Hne : videos <> []) by discriminate.
  assert (Hi : 0 <= 2) by lia.
  destruct (video_carousel_wraps videos 2 s Hne Hi eq_refl) as [H _].
  exact H.
Defined.

End VideoFacts.

(** ** Further properties of the paged carousel *)

Module NavigationExtras.
Import Carousel Session NavigationFacts.

Lemma delete_last_app {A} (l : list A) x : delete (length l) (l ++ [x]) = l.
Proof. induction l as [|y l IH]; simpl; [reflexivity|]. f_equal. exact IH. Qed.

Lemma with_in_flight_same w : with_in_flight (in_flight w) w = w.
Proof. destruct w. reflexivity. Qed.

Lemma with_in_flight_twice l l' w :
  with_in_flight l (with_in_flight l' w) = with_in_flight l w.
Proof. reflexivity. Qed.

Lemma frame_exec body : forall w,
  crop (state (exec body w)) = crop (state w) /\
  location_q (exec body w) = location_q w.
Proof.
  induction body as [|[c|n|d|n] k IH]; intros w; simpl; auto.
  - destruct (IH (with_state (setIndex n) w)); auto.
  - destruct (IH (with_state (setDirection d) w)); auto.
  - destruct (IH (with_notified n w)); auto.
Qed.

(** *** Disabled flags and no-op handlers *)

Lemma sync_advance_moves w :
  hasNextItem (props w) (state w) = true ->
  advance w <> w.
Proof.
  intros Hn Heq.
  destruct (Z.eq_dec (index (state w) + 1) (items_length (props w) - 1)) as [E|E];
  [destruct (Z_lt_le_dec (page (props w)) (totalPages (props w) - 1)) as [L|L]|].
  - unfold advance in Heq. rewrite nextItem_crossing in Heq by assumption.
    rewrite exec_await in Heq. apply (f_equal in_flight) in Heq. simpl in Heq.
    apply (f_equal length) in Heq. rewrite length_app in Heq. simpl in Heq. lia.
  - unfold advance in Heq. rewrite nextItem_local in Heq by auto.
    apply (f_equal (fun x => index (state x))) in Heq.
    rewrite state_exec in Heq. simpl in Heq. rewrite run_state_notify in Heq.
    simpl in Heq. lia.
  - unfold advance in Heq. rewrite nextItem_local in Heq by auto.
    apply (f_equal (fun x => index (state x))) in Heq.
    rewrite state_exec in Heq. simpl in Heq. rewrite run_state_notify in Heq.
    simpl in Heq. lia.
Qed.

Lemma sync_retreat_moves PER_PAGE w :
  hasPreviousItem (props w) (state w) = true ->
  retreat PER_PAGE w <> w.
Proof.
  intros Hn Heq. unfold retreat, previousItem in Heq. rewrite Hn in Heq.
  simpl in Heq. destruct (index (state w) - 1 <? 0).
  - rewrite exec_await in Heq. apply (f_equal in_flight) in Heq. simpl in Heq.
    apply (f_equal length) in Heq. rewrite length_app in Heq. simpl in Heq. lia.
  - apply (f_equal (fun x => index (state x))) in Heq.
    rewrite state_exec in Heq. simpl in Heq. rewrite run_state_notify in Heq.
    simpl in Heq. lia.
Qed.

(** X1.  The buttons are disabled exactly where the handlers do
    nothing: [nextItem] leaves the world as it is if and only if
    [hasNextItem] is false, and [previousItem] if and only if
    [hasPreviousItem] is false. *)
Theorem handler_is_noop_iff_disabled PER_PAGE w :
  (advance w = w <-> hasNextItem (props w) (state w) = false) /\
  (retreat PER_PAGE w = w <-> hasPreviousItem (props w) (state w) = false).
Proof.
  split; split.
  - intros Heq. destruct (hasNextItem (props w) (state w)) eqn:Hn; [|reflexivity].
    exfalso. exact (sync_advance_moves w Hn Heq).
  - intros Hn. unfold advance. rewrite nextItem_disabled by exact Hn. reflexivity.
  - intros Heq. destruct (hasPreviousItem (props w) (state w)) eqn:Hn; [|reflexivity].
    exfalso. exact (sync_retreat_moves PER_PAGE w Hn Heq).
  - intros Hn. unfold retreat. rewrite previousItem_disabled by exact Hn. reflexivity.
Qed.

Lemma handler_is_noop_iff_disabled_witness :
  hasNextItem (page_of 40 2 2) (cursor 38 1) = true /\
  advance (idle (page_of 40 2 2) (cursor 38 1))
    <> idle (page_of 40 2 2) (cursor 38 1).
Proof.
  split; [reflexivity|].
  intros Heq.
  apply (proj1 (proj1 (handler_is_noop_iff_disabled 40 _))) in Heq.
  discriminate Heq.
Defined.

(** *** A rejected page request *)

(** X2.  A boundary crossing whose page request fails leaves no trace:
    once the request has been answered with a failure the world is
    exactly the one before the navigation request, cursor, props,
    notifications and requests in flight included. *)
Theorem failed_crossing_leaves_no_trace PER_PAGE nav w r :
  in_flight (request PER_PAGE nav w) = in_flight w ++ [r] ->
  settle (length (in_flight w)) Failed (request PER_PAGE nav w) = w.
Proof.
  intros Hr. unfold request in *.
  destruct (handler_shape PER_PAGE nav (props w) (state w)) as [(c & k & E)|Hs].
  - rewrite E in *. rewrite exec_await in *. unfold settle. simpl.
    rewrite lookup_app_r by lia. rewrite Nat.sub_diag. simpl.
    rewrite delete_last_app, with_in_flight_twice. apply with_in_flight_same.
  - rewrite in_flight_exec_sync in Hr by exact Hs.
    apply (f_equal length) in Hr. rewrite length_app in Hr. simpl in Hr. lia.
Qed.

Lemma failed_crossing_leaves_no_trace_witness :
  let w := idle (page_of 40 2 3) (cursor 0 1) in
  settle 0 Failed (request 40 Retreat w) = w.
Proof.
  intros w.
  apply (failed_crossing_leaves_no_trace 40 Retreat w
           {| target := 1; tag := 0%nat;
              resume := [SetIndex 39; SetDirection (-1); OnItemChange 39] |}).
  reflexivity.
Defined.

(** *** The cursor over a whole session *)

Lemma sound_notify p n : Forall sound_instr (notify p n).
Proof.
  unfold notify. destruct (onItemChange p); repeat constructor.
Qed.

Lemma sound_handler PER_PAGE nav p s :
  1 <= PER_PAGE -> 0 <= index s ->
  Forall sound_instr (handler PER_PAGE nav p s).
Proof.
  intros Hpp Hi. destruct nav; simpl.
  - unfold nextItem. destruct (negb (hasNextItem p s)); [constructor|].
    destruct (_ && _); repeat (constructor; simpl; try lia; auto);
      apply sound_notify.
  - unfold previousItem. destruct (negb (hasPreviousItem p s)); [constructor|].
    destruct (Z.ltb_spec (index s - 1) 0);
      repeat (constructor; simpl; try lia; auto); apply sound_notify.
Qed.

Lemma exec_sound body : forall w,
  Forall sound_instr body -> sound w -> sound (exec body w).
Proof.
  induction body as [|i k IH]; intros w Hb Hw; [exact Hw|].
  apply Forall_cons in Hb as [Hi Hk].
  destruct Hw as (H0 & Hd & Hf).
  destruct i as [c|n|d|n]; simpl.
  - unfold issue, sound. simpl. split_and!; auto.
    apply Forall_app. split; [exact Hf|]. constructor; [exact Hk|constructor].
  - apply IH; [exact Hk|]. unfold sound. simpl. auto.
  - apply IH; [exact Hk|]. unfold sound. simpl. auto.
  - apply IH; [exact Hk|]. unfold sound. simpl. auto.
Qed.

Lemma step_sound PER_PAGE w e :
  1 <= PER_PAGE -> sound w -> sound (step PER_PAGE w e).
Proof.
  intros Hpp Hw. destruct e as [nav|i o|text|]; simpl.
  - unfold request. apply exec_sound; [|exact Hw].
    apply sound_handler; [exact Hpp|apply Hw].
  - unfold settle. destruct (in_flight w !! i) as [r|] eqn:Hr; [|exact Hw].
    destruct Hw as (H0 & Hd & Hf).
    assert (Hres : Forall sound_instr (resume r)).
    { rewrite Forall_lookup in Hf. exact (Hf i r Hr). }
    assert (Hw1 : sound (with_in_flight (delete i (in_flight w)) w)).
    { unfold sound. simpl. split_and!; auto. apply Forall_delete. exact Hf. }
    destruct o as [its pages results|]; [|exact Hw1].
    apply exec_sound; [exact Hres|].
    unfold replace_page. destruct (Nat.eqb _ _); exact Hw1.
  - destruct Hw as (H0 & Hd & Hf). unfold sound. simpl. split_and!; auto; [lia|].
    apply Forall_app. split; [exact Hf|]. repeat constructor.
  - destruct Hw as (H0 & Hd & Hf). unfold sound. simpl. auto.
Qed.

Lemma run_sound PER_PAGE es : forall w,
  1 <= PER_PAGE -> sound w -> sound (run PER_PAGE es w).
Proof.
  induction es as [|e es IH]; intros w Hpp Hw; [exact Hw|].
  simpl. apply IH; [exact Hpp|]. apply step_sound; assumption.
Qed.

(** X3.  Whatever the user does and however the page requests are
    answered and interleaved, a carousel mounted with an index that is
    not negative (and a page size of at least one) never has a negative
    index, and its direction is always 1 or -1. *)
Theorem cursor_stays_sound PER_PAGE p es :
  1 <= PER_PAGE ->
  (forall i, initialIndex p = Some i -> 0 <= i) ->
  let w := run PER_PAGE es (start p) in
  0 <= index (state w) /\
  (direction (state w) = 1 \/ direction (state w) = -1).
Proof.
  intros Hpp Hinit w.
  assert (Hs : sound (start p)).
  { unfold sound, start, mount. simpl. split_and!; auto.
    destruct (initialIndex p) as [i|] eqn:E; [|lia].
    specialize (Hinit i eq_refl). destruct (i =? 0); lia. }
  destruct (run_sound PER_PAGE es (start p) Hpp Hs) as (H0 & Hd & _). auto.
Qed.

Lemma cursor_stays_sound_witness :
  let w := run 40 [Navigate Retreat; Commit "x"; Navigate Advance;
                   Answer 0 (Loaded (repeat clip 3) 2 43); ToggleCrop]
             (start (page_of 40 2 4)) in
  0 <= index (state w) /\
  (direction (state w) = 1 \/ direction (state w) = -1).
Proof.
  apply (cursor_stays_sound 40 (page_of 40 2 4)); [lia|].
  intros i Hi. discriminate Hi.
Defined.

(** *** Notifications *)

Lemma handler_cases PER_PAGE nav p s :
  handler PER_PAGE nav p s = [] \/
  (exists c n d, handler PER_PAGE nav p s
                 = Await c :: SetIndex n :: SetDirection d :: notify p n) \/
  (exists n d, handler PER_PAGE nav p s
               = SetIndex n :: SetDirection d :: notify p n).
Proof.
  destruct nav; simpl.
  - unfold nextItem. destruct (negb (hasNextItem p s)); [left; reflexivity|].
    destruct (_ && _); right; [left|right]; eauto.
  - unfold previousItem. destruct (negb (hasPreviousItem p s)); [left; reflexivity|].
    destruct (_ <? _); right; [left|right]; eauto.
Qed.

Lemma exec_move n d p w :
  state (exec (SetIndex n :: SetDirection d :: notify p n) w)
    = {| index := n; direction := d; crop := crop (state w) |} /\
  notified (exec (SetIndex n :: SetDirection d :: notify p n) w)
    = notified w ++ (if onItemChange p then [n] else []) /\
  props (exec (SetIndex n :: SetDirection d :: notify p n) w) = props w.
Proof.
  unfold notify. destruct (onItemChange p); simpl; rewrite ?app_nil_r; auto.
Qed.

(** X4.  Every navigation request that is carried out to its end -- at
    once for a move inside the page, after the page request has been
    answered for a boundary crossing -- calls [onItemChange] exactly
    once, with the index it has just set; without an [onItemChange]
    prop nothing is notified. *)
Theorem notification_carries_new_index PER_PAGE nav w its pages results :
  handler PER_PAGE nav (props w) (state w) <> [] ->
  let finished :=
    if awaits (handler PER_PAGE nav (props w) (state w))
    then settle (length (in_flight w)) (Loaded its pages results)
           (request PER_PAGE nav w)
    else request PER_PAGE nav w in
  notified finished
    = notified w ++ (if onItemChange (props w)
                     then [index (state finished)] else []).
Proof.
  intros Hne. unfold request.
  destruct (handler_cases PER_PAGE nav (props w) (state w))
    as [E|[(c & n & d & E)|(n & d & E)]]; [contradiction| |]; rewrite E.
  - simpl awaits. cbv iota. rewrite exec_await. unfold settle. simpl in_flight.
    rewrite lookup_app_r by lia. rewrite Nat.sub_diag. simpl lookup.
    cbv iota beta. simpl resume.
    rewrite delete_last_app, with_in_flight_twice, with_in_flight_same.
    match goal with |- context [exec _ ?w1] =>
      destruct (exec_move n d (props w) w1) as (Hst & Hno & _) end.
    rewrite Hno, Hst. simpl index.
    unfold replace_page. simpl. rewrite Nat.eqb_refl. reflexivity.
  - assert (Hs : awaits (SetIndex n :: SetDirection d :: notify (props w) n) = false)
      by (simpl; apply awaits_notify).
    rewrite Hs.
    destruct (exec_move n d (props w) w) as (Hst & Hno & _).
    rewrite Hno, Hst. reflexivity.
Qed.

Lemma notification_carries_new_index_witness :
  let w := idle (page_of 40 2 3) (cursor 0 1) in
  notified (settle 0 (Loaded (repeat clip 40) 3 120) (request 40 Retreat w))
    = [39].
Proof.
  intros w.
  assert (Hne : handler 40 Retreat (props w) (state w) <> []) by discriminate.
  exact (notification_carries_new_index 40 Retreat w (repeat clip 40) 3 120 Hne).
Defined.

(** *** Where a backward crossing lands *)

(** X5.  After a backward boundary crossing the item shown is the one
    in slot [PER_PAGE - 1] of the fetched page, whatever the length of
    that page: when the fetched page has fewer than [PER_PAGE] items
    there is no current item, although the page is not empty. *)
Theorem backward_crossing_shows_slot_of_full_page PER_PAGE w its pages results :
  1 <= PER_PAGE ->
  index (state w) = 0 ->
  1 < page (props w) ->
  let w' := settle (length (in_flight w)) (Loaded its pages results)
              (retreat PER_PAGE w) in
  currentItem (props w') (state w') = its !! Z.to_nat (PER_PAGE - 1) /\
  (currentItem (props w') (state w') = None
   <-> Z.of_nat (length its) < PER_PAGE).
Proof.
  intros Hpp Hi Hp w'.
  assert (Hcur : currentItem (props w') (state w') = its !! Z.to_nat (PER_PAGE - 1)).
  { subst w'. unfold retreat. rewrite previousItem_crossing by assumption.
    rewrite exec_await. unfold settle. simpl in_flight.
    rewrite lookup_app_r by lia. rewrite Nat.sub_diag. simpl lookup.
    cbv iota beta. simpl resume.
    rewrite delete_last_app, with_in_flight_twice, with_in_flight_same.
    unfold currentItem.
    match goal with |- context [exec _ ?w1] =>
      destruct (exec_move (PER_PAGE - 1) (-1) (props w) w1) as (Hst & _ & Hpr) end.
    rewrite Hst, Hpr. simpl index.
    assert ((PER_PAGE - 1 <? 0) = false) as -> by (apply Z.ltb_ge; lia).
    unfold replace_page. simpl. rewrite Nat.eqb_refl. reflexivity. }
  split; [exact Hcur|]. rewrite Hcur, lookup_ge_None. lia.
Qed.

Lemma backward_crossing_shows_slot_of_full_page_witness :
  let w := idle (page_of 40 2 2) (cursor 0 1) in
  let w' := settle 0 (Loaded (repeat clip 25) 2 65) (retreat 40 w) in
  index (state w') = 39 /\ currentItem (props w') (state w') = None.
Proof.
  intros w w'. split; [reflexivity|].
  assert (Hpp : 1 <= 40) by lia.
  assert (Hp : 1 < page (props w)) by (simpl; lia).
  destruct (backward_crossing_shows_slot_of_full_page 40 w (repeat clip 25) 2 65
              Hpp eq_refl Hp) as [_ Hnone].
  apply Hnone. simpl. lia.
Defined.

(** *** The earlier revision *)

(** X6.  In the earlier revision the handlers are not guarded by the
    flags of their buttons.  At index 0 of page 1, where
    [hasPreviousPage] is false, [previousVideo] still requests a page,
    page 0; and on any page, the last included, stepping onto the last
    item requests page [page + 1] even where [hasNextPage] is false. *)
Theorem legacy_handlers_ignore_their_flags PER_PAGE (w_first w_last : World) :
  index (state w_first) = 0 ->
  page (props w_first) = 1 ->
  index (state w_last) + 1 = items_length (props w_last) - 1 ->
  totalPages (props w_last) <= page (props w_last) ->
  (Legacy.hasPreviousPage (props w_first) (state w_first) = false /\
   map target (in_flight (Legacy.retreat PER_PAGE w_first))
     = map target (in_flight w_first) ++ [0]) /\
  (Legacy.hasNextPage (props w_last) = false /\
   map target (in_flight (Legacy.advance w_last))
     = map target (in_flight w_last) ++ [page (props w_last) + 1]).
Proof.
  intros Hi Hp Hl Ht. split; split.
  - unfold Legacy.hasPreviousPage. rewrite Hi, Hp. reflexivity.
  - unfold Legacy.retreat, Legacy.previousVideo. rewrite Hi. simpl.
    unfold issue. simpl. rewrite map_app. simpl. rewrite Hp. reflexivity.
  - unfold Legacy.hasNextPage. apply Z.ltb_ge. lia.
  - unfold Legacy.advance, Legacy.nextVideo.
    assert ((index (state w_last) + 1 =? items_length (props w_last) - 1) = true)
      as -> by (apply Z.eqb_eq; exact Hl).
    simpl. unfold issue. simpl. rewrite map_app. reflexivity.
Qed.

Lemma legacy_handlers_ignore_their_flags_witness :
  let w_first := idle (page_of 40 1 2) (cursor 0 1) in
  let w_last := idle (page_of 40 2 2) (cursor 38 1) in
  map target (in_flight (Legacy.retreat 40 w_first)) = [0] /\
  map target (in_flight (Legacy.advance w_last)) = [3].
Proof.
  intros w_first w_last.
  assert (Hl : index (state w_last) + 1 = items_length (props w_last) - 1)
    by reflexivity.
  assert (Ht : totalPages (props w_last) <= page (props w_last)) by (simpl; lia).
  destruct (legacy_handlers_ignore_their_flags 40 w_first w_last
              eq_refl eq_refl Hl Ht) as [[_ H1] [_ H2]].
  split; [exact H1|exact H2].
Defined.

(** *** The crop preference *)

Lemma crop_step PER_PAGE w e :
  crop (state (step PER_PAGE w e))
  = match e with
    | ToggleCrop => negb (crop (state w))
    | _ => crop (state w)
    end.
Proof.
  destruct e as [nav|i o|text|]; simpl.
  - unfold request. apply frame_exec.
  - unfold settle. destruct (in_flight w !! i) as [r|]; [|reflexivity].
    destruct o as [its pages results|]; [|reflexivity].
    rewrite (proj1 (frame_exec _ _)). unfold replace_page.
    destruct (Nat.eqb _ _); reflexivity.
  - reflexivity.
  - reflexivity.
Qed.

(** X17.  Nothing but the crop button touches the crop preference:
    through any session of navigation requests, query commits and
    answered or failed page requests, the preference is the initial one
    flipped once per press of the button. *)
Theorem crop_only_follows_its_button PER_PAGE es : forall w,
  crop (state (run PER_PAGE es w))
  = xorb (Nat.odd (toggles es)) (crop (state w)).
Proof.
  induction es as [|e es IH]; intros w.
  - simpl. destruct (crop (state w)); reflexivity.
  - change (run PER_PAGE (e :: es) w) with (run PER_PAGE es (step PER_PAGE w e)).
    rewrite IH, crop_step. destruct e as [nav|i o|text|]; try reflexivity.
    cbn [toggles]. rewrite Nat.odd_succ, <- Nat.negb_odd.
    destruct (Nat.odd (toggles es)), (crop (state w)); reflexivity.
Qed.

End NavigationExtras.

(** ** Further properties of the single-page carousels *)

Module VideoExtras.
Import VideoCarousel VideoSession.

Section Videos.

Context {Video : Type}.

Lemma length_pos (videos : list Video) :
  videos <> [] -> 0 < Z.of_nat (length videos).
Proof. destruct videos; [contradiction|simpl; lia]. Qed.

Lemma index_nextVideo (videos : list Video) i s :
  videos <> [] -> 0 <= i -> currentVideoIndex s = Num i ->
  currentVideoIndex (nextVideo Video videos s)
    = Num ((i + 1) mod Z.of_nat (length videos)).
Proof.
  intros Hne Hi Hs. pose proof (length_pos videos Hne) as Hn.
  unfold nextVideo, setDirection, setCurrentVideoIndex, videos_length.
  cbn [currentVideoIndex]. rewrite Hs. unfold add, rem.
  assert ((Z.of_nat (length videos) =? 0) = false) as ->
    by (apply Z.eqb_neq; lia).
  rewrite Z.rem_mod_nonneg by lia. reflexivity.
Qed.

Lemma index_previousVideo (videos : list Video) i s :
  videos <> [] -> 0 <= i -> currentVideoIndex s = Num i ->
  currentVideoIndex (previousVideo Video videos s)
    = Num ((i - 1 + Z.of_nat (length videos)) mod Z.of_nat (length videos)).
Proof.
  intros Hne Hi Hs. pose proof (length_pos videos Hne) as Hn.
  unfold previousVideo, setDirection, setCurrentVideoIndex, videos_length.
  cbn [currentVideoIndex]. rewrite Hs. unfold add, rem, max.
  set (n := Z.of_nat (length videos)) in *.
  assert ((n =? 0) = false) as -> by (apply Z.eqb_neq; lia).
  replace (i + -1 + n) with (i - 1 + n) by lia.
  rewrite Z.rem_mod_nonneg by lia.
  rewrite Z.max_r by (apply Z.mod_pos_bound; lia). reflexivity.
Qed.

(** X7.  In either variant, on a non-empty list and from an index inside
    it, [nextVideo] and [previousVideo] undo each other, in both orders,
    the wrap-around at the two ends included. *)
Theorem next_and_previous_video_are_inverse (videos : list Video) i s :
  0 <= i < Z.of_nat (length videos) ->
  currentVideoIndex s = Num i ->
  currentVideoIndex (previousVideo Video videos (nextVideo Video videos s)) = Num i /\
  currentVideoIndex (nextVideo Video videos (previousVideo Video videos s)) = Num i /\
  currentVideoIndex
    (previousVideo_guarded Video videos (nextVideo_guarded Video videos s)) = Num i /\
  currentVideoIndex
    (nextVideo_guarded Video videos (previousVideo_guarded Video videos s)) = Num i.
Proof.
  intros Hi Hs.
  assert (Hne : videos <> []) by (intros ->; simpl in Hi; lia).
  set (n := Z.of_nat (length videos)) in *.
  assert (Hpn : currentVideoIndex (previousVideo Video videos (nextVideo Video videos s))
                = Num i).
  { rewrite (index_previousVideo videos ((i + 1) mod n)); auto.
    - fold n. f_equal.
      replace ((i + 1) mod n - 1 + n) with ((i + 1) mod n + (n - 1)) by lia.
      rewrite Z.add_mod_idemp_l by lia.
      replace (i + 1 + (n - 1)) with (i + 1 * n) by lia.
      rewrite Z.mod_add by lia. apply Z.mod_small. lia.
    - apply Z.mod_pos_bound. lia.
    - apply index_nextVideo; auto. lia. }
  assert (Hnp : currentVideoIndex (nextVideo Video videos (previousVideo Video videos s))
                = Num i).
  { rewrite (index_nextVideo videos ((i - 1 + n) mod n)); auto.
    - fold n. f_equal.
      rewrite Z.add_mod_idemp_l by lia.
      replace (i - 1 + n + 1) with (i + 1 * n) by lia.
      rewrite Z.mod_add by lia. apply Z.mod_small. lia.
    - apply Z.mod_pos_bound. lia.
    - apply index_previousVideo; auto. lia. }
  unfold nextVideo_guarded, previousVideo_guarded.
  destruct videos as [|v vs]; [contradiction|]. simpl Nat.eqb. cbv iota.
  auto.
Qed.

Lemma index_iter_nextVideo (videos : list Video) (k : nat) : forall i s,
  videos <> [] -> 0 <= i -> currentVideoIndex s = Num i ->
  currentVideoIndex (Nat.iter k (nextVideo Video videos) s)
    = Num ((i + Z.of_nat k) mod Z.of_nat (length videos)) \/ k = 0%nat.
Proof.
  induction k as [|k IH]; intros i s Hne Hi Hs; [right; reflexivity|left].
  assert (Hn : 0 < Z.of_nat (length videos))
    by (destruct videos; [contradiction|simpl; lia]).
  simpl Nat.iter.
  destruct (IH i s Hne Hi Hs) as [Hk | ->].
  - rewrite (index_nextVideo videos _ _ Hne
               ltac:(apply Z.mod_pos_bound; exact Hn) Hk).
    rewrite Z.add_mod_idemp_l by lia. f_equal. f_equal. lia.
  - simpl Nat.iter. rewrite (index_nextVideo videos i s Hne Hi Hs).
    f_equal.
Qed.

(** X8.  Pressing next as many times as there are videos goes once
    round the list and comes back to the video it started from. *)
Theorem next_video_full_cycle (videos : list Video) i s :
  0 <= i < Z.of_nat (length videos) ->
  currentVideoIndex s = Num i ->
  currentVideoIndex (Nat.iter (length videos) (nextVideo Video videos) s) = Num i.
Proof.
  intros Hi Hs.
  assert (Hne : videos <> []) by (intros ->; simpl in Hi; lia).
  destruct (index_iter_nextVideo videos (length videos) i s Hne (proj1 Hi) Hs)
    as [H|H].
  - rewrite H. f_equal.
    replace (i + Z.of_nat (length videos)) with (i + 1 * Z.of_nat (length videos))
      by lia.
    rewrite Z.mod_add by lia. apply Z.mod_small. exact Hi.
  - destruct videos; [contradiction|discriminate H].
Qed.

(** *** Sessions *)

Lemma step_keeps_number (s : State) (e : Event Video) j :
  currentVideoIndex s = Num j -> 0 <= j ->
  exists j', currentVideoIndex (step Video s e) = Num j' /\ 0 <= j'.
Proof.
  intros Hs Hj. destruct e as [videos|videos|]; simpl.
  - unfold nextVideo_guarded. destruct videos as [|v vs] eqn:E; simpl Nat.eqb; cbv iota.
    + eauto.
    + rewrite <- E. assert (Hne : videos <> []) by (rewrite E; discriminate).
      rewrite (index_nextVideo videos j s Hne Hj Hs). eexists. split; [reflexivity|].
      apply Z.mod_pos_bound, length_pos, Hne.
  - unfold previousVideo_guarded. destruct videos as [|v vs] eqn:E; simpl Nat.eqb; cbv iota.
    + eauto.
    + rewrite <- E. assert (Hne : videos <> []) by (rewrite E; discriminate).
      rewrite (index_previousVideo videos j s Hne Hj Hs). eexists. split; [reflexivity|].
      apply Z.mod_pos_bound, length_pos, Hne.
  - exists 0. split; [reflexivity|lia].
Qed.

Lemma run_keeps_number (es : list (Event Video)) : forall s j,
  currentVideoIndex s = Num j -> 0 <= j ->
  exists j', currentVideoIndex (run Video es s) = Num j' /\ 0 <= j'.
Proof.
  induction es as [|e es IH]; intros s j Hs Hj; [eauto|].
  destruct (step_keeps_number s e j Hs Hj) as (j1 & H1 & H1').
  simpl. exact (IH _ j1 H1 H1').
Qed.

(** X9.  The guarded carousel never loses its index: whatever lists of
    videos come and go, empty ones included, and whatever the user
    presses, the index is a number and is not negative. *)
Theorem guarded_index_is_always_a_number (es : list (Event Video)) :
  exists j, currentVideoIndex (run Video es initial) = Num j /\ 0 <= j.
Proof. apply (run_keeps_number es initial 0); [reflexivity|lia]. Qed.

(** X10.  After a navigation on a non-empty list the index of the
    guarded carousel designates a video of that list, wherever the
    index was before (the list may have shrunk since). *)
Theorem guarded_navigation_lands_on_a_video
    (es : list (Event Video)) (videos : list Video) :
  videos <> [] ->
  let s := run Video es initial in
  (exists j, currentVideoIndex (nextVideo_guarded Video videos s) = Num j /\
             0 <= j /\ is_Some (videos !! Z.to_nat j)) /\
  (exists j, currentVideoIndex (previousVideo_guarded Video videos s) = Num j /\
             0 <= j /\ is_Some (videos !! Z.to_nat j)).
Proof.
  intros Hne s.
  destruct (run_keeps_number es initial 0 eq_refl (Z.le_refl 0)) as (i & Hi & Hi0).
  fold s in Hi.
  pose proof (length_pos videos Hne) as Hn.
  unfold nextVideo_guarded, previousVideo_guarded.
  destruct videos as [|v vs] eqn:E; [contradiction|]. simpl Nat.eqb. cbv iota.
  rewrite <- E in *. split.
  - rewrite (index_nextVideo videos i s Hne Hi0 Hi). eexists. split; [reflexivity|].
    pose proof (Z.mod_pos_bound (i + 1) _ Hn). split; [lia|].
    apply lookup_lt_is_Some. lia.
  - rewrite (index_previousVideo videos i s Hne Hi0 Hi). eexists. split; [reflexivity|].
    pose proof (Z.mod_pos_bound (i - 1 + Z.of_nat (length videos)) _ Hn).
    split; [lia|]. apply lookup_lt_is_Some. lia.
Qed.

Lemma thrown_stays_thrown (videos : list Video) (ks : list Key) :
  fold_left (fun o k => match o with
                        | Some s => key Video videos s k
                        | None => None
                        end) ks None = None.
Proof. induction ks as [|k ks IH]; [reflexivity|exact IH]. Qed.

Lemma key_renders (videos : list Video) i s k :
  videos <> [] -> 0 <= i -> currentVideoIndex s = Num i ->
  exists s' j, key Video videos s k = Some s' /\
               currentVideoIndex s' = Num j /\
               0 <= j < Z.of_nat (length videos).
Proof.
  intros Hne Hi Hs. pose proof (length_pos videos Hne) as Hn.
  assert (Hin : forall s' j, currentVideoIndex s' = Num j ->
                  0 <= j < Z.of_nat (length videos) ->
                  rendered Video videos s' = Some s').
  { intros s' j Hs' Hj. unfold rendered, element. rewrite Hs'.
    assert ((j <? 0) = false) as -> by (apply Z.ltb_ge; lia).
    destruct (lookup_lt_is_Some_2 videos (Z.to_nat j) ltac:(lia)) as [v ->].
    reflexivity. }
  destruct k; unfold key.
  - pose proof (index_nextVideo videos i s Hne Hi Hs) as Hnext.
    pose proof (Z.mod_pos_bound (i + 1) _ Hn) as Hb.
    eexists _, _. split; [exact (Hin _ _ Hnext Hb)|]. split; [exact Hnext|exact Hb].
  - pose proof (index_previousVideo videos i s Hne Hi Hs) as Hprev.
    pose proof (Z.mod_pos_bound (i - 1 + Z.of_nat (length videos)) _ Hn) as Hb.
    eexists _, _. split; [exact (Hin _ _ Hprev Hb)|]. split; [exact Hprev|exact Hb].
Qed.

Lemma keys_render (videos : list Video) (ks : list Key) : forall i s,
  videos <> [] -> 0 <= i < Z.of_nat (length videos) ->
  currentVideoIndex s = Num i ->
  exists s' j,
    fold_left (fun o k => match o with
                          | Some s => key Video videos s k
                          | None => None
                          end) ks (Some s) = Some s' /\
    currentVideoIndex s' = Num j /\ 0 <= j < Z.of_nat (length videos).
Proof.
  induction ks as [|k ks IH]; intros i s Hne Hi Hs.
  - exists s, i. auto.
  - destruct (key_renders videos i s k Hne (proj1 Hi) Hs) as (s1 & j1 & Hk & Hs1 & Hj1).
    simpl. rewrite Hk. exact (IH j1 s1 Hne Hj1 Hs1).
Qed.

(** X11.  [src/carousel.tsx] cannot show an empty list: its first
    render throws, so no key is ever handled.  With a list that is not
    empty no sequence of keys makes a render throw: after each of them
    the index is a number that designates a video of the list. *)
Theorem unguarded_carousel_renders_iff_not_empty
    (v : Video) (vs : list Video) (ks : list Key) :
  session Video [] ks = None /\
  exists s j, session Video (v :: vs) ks = Some s /\
              currentVideoIndex s = Num j /\
              0 <= j < Z.of_nat (length (v :: vs)).
Proof.
  split.
  - unfold session. change (rendered Video [] initial) with (@None State).
    apply thrown_stays_thrown.
  - unfold session. change (rendered Video (v :: vs) initial) with (Some initial).
    apply (keys_render (v :: vs) ks 0 initial); [discriminate| |reflexivity].
    simpl length. lia.
Qed.

End Videos.

Lemma next_and_previous_video_are_inverse_witness :
  let videos := ["a"; "b"; "c"]%string in
  let s := {| currentVideoIndex := Num 2; direction := 1; cropVideo := false |} in
  currentVideoIndex (previousVideo string videos (nextVideo string videos s)) = Num 2.
Proof.
  intros videos s.
  assert (Hi : 0 <= 2 < Z.of_nat (length videos)) by (simpl; lia).
  exact (proj1 (next_and_previous_video_are_inverse videos 2 s Hi eq_refl)).
Defined.

Lemma next_video_full_cycle_witness :
  let videos := ["a"; "b"; "c"]%string in
  let s := {| currentVideoIndex := Num 1; direction := -1; cropVideo := false |} in
  currentVideoIndex (Nat.iter 3 (nextVideo string videos) s) = Num 1.
Proof.
  intros videos s.
  assert (Hi : 0 <= 1 < Z.of_nat (length videos)) by (simpl; lia).
  exact (next_video_full_cycle videos 1 s Hi eq_refl).
Defined.

Lemma guarded_navigation_lands_on_a_video_witness :
  let s := run string [Next string ["a"; "b"; "c"; "d"]%string;
                       Previous string ["a"; "b"; "c"; "d"]%string;
                       Previous string ["a"; "b"; "c"; "d"]%string] initial in
  currentVideoIndex s = Num 3 /\
  exists j, currentVideoIndex (nextVideo_guarded string ["a"; "b"]%string s) = Num j /\
            0 <= j /\ is_Some (["a"; "b"]%string !! Z.to_nat j).
Proof.
  split; [reflexivity|].
  assert (Hne : ["a"; "b"]%string <> []) by discriminate.
  exact (proj1 (guarded_navigation_lands_on_a_video _ ["a"; "b"]%string Hne)).
Defined.

End VideoExtras.

(** ** Properties of the visibility countdown *)

Module VisibilityFacts.
Import Visibility.

Lemma elapse_single_due t id d o :
  pending o = [(id, d)] -> d <= t ->
  pending (elapse t o) = [] /\ opacity (elapse t o) = 0.
Proof.
  intros Hp Hd. unfold elapse. simpl. rewrite Hp.
  rewrite (filter_cons_True (fun tm : nat * Z => tm.2 <= t)) by exact Hd.
  rewrite (filter_cons_False (fun tm : nat * Z => t < tm.2)) by (simpl; lia).
  auto.
Qed.

Lemma elapse_single_later t id d o :
  pending o = [(id, d)] -> t < d ->
  pending (elapse t o) = [(id, d)] /\ opacity (elapse t o) = opacity o.
Proof.
  intros Hp Hd. unfold elapse. simpl. rewrite Hp.
  rewrite (filter_cons_False (fun tm : nat * Z => tm.2 <= t)) by (simpl; lia).
  rewrite (filter_cons_True (fun tm : nat * Z => t < tm.2)) by exact Hd.
  auto.
Qed.

Lemma elapse_none t o :
  pending o = [] ->
  pending (elapse t o) = [] /\ opacity (elapse t o) = opacity o.
Proof. intros Hp. unfold elapse. simpl. rewrite Hp. auto. Qed.

Lemma elapse_settled seen now t o :
  now <= t -> settled seen now o -> settled seen t (elapse t o).
Proof.
  intros Hle Hs. destruct seen as [t0|]; unfold settled in *.
  - destruct Hs as [(id & Hid & Hp & Hop & Hlt)|(Hp & Hop & Hge)].
    + destruct (Z_lt_le_dec t (t0 + overlayTimeout)) as [L|L].
      * destruct (elapse_single_later t id _ o Hp L) as [Hp' Hop'].
        left. exists id. rewrite Hp', Hop'. auto.
      * destruct (elapse_single_due t id _ o Hp L) as [Hp' Hop'].
        right. auto.
    + destruct (elapse_none t o Hp) as [Hp' Hop'].
      right. rewrite Hp', Hop'. split_and!; auto. lia.
  - destruct Hs as [Hp Hop].
    destruct (elapse_none t o Hp) as [Hp' Hop']. rewrite Hp', Hop'. auto.
Qed.

Lemma showOverlay_settled seen t o :
  settled seen t o -> settled (Some t) t (showOverlay t o).
Proof.
  intros Hs. simpl. left. exists (next_id o). unfold showOverlay. simpl.
  split_and!; auto; [|unfold overlayTimeout; lia].
  f_equal. destruct seen as [t0|]; simpl in Hs.
  - destruct Hs as [(id & Hid & Hp & _)|(Hp & _)]; rewrite Hp.
    + rewrite Hid. simpl.
      rewrite (filter_cons_False (fun tm : nat * Z => tm.1 <> id)); [reflexivity|].
      simpl. intros H. apply H. reflexivity.
    + destruct (timeout o); reflexivity.
  - destruct Hs as [Hp _]. rewrite Hp. destruct (timeout o); reflexivity.
Qed.

Lemma run_settled es : forall seen now o,
  ordered now es -> settled seen now o ->
  settled (last_interaction seen es) (clock now es) (run es o).
Proof.
  induction es as [|e es IH]; intros seen now o Ho Hs; [exact Hs|].
  destruct Ho as [Hle Ho]. destruct e as [t|t]; simpl in *.
  - apply IH; [exact Ho|]. apply showOverlay_settled with (seen := seen).
    apply elapse_settled with (now := now); assumption.
  - apply IH; [exact Ho|]. apply elapse_settled with (now := now); assumption.
Qed.

(** X12.  The overlay hides exactly [overlayTimeout] after the last
    interaction, never earlier and never later, however many
    interactions and renders came before; and at no time is more than
    one countdown pending. *)
Theorem overlay_hides_after_last_interaction es now t T :
  ordered now es ->
  last_interaction None es = Some t ->
  clock now es <= T ->
  (length (pending (run es mounted)) <= 1)%nat /\
  opacity (elapse T (run es mounted))
    = (if t + overlayTimeout <=? T then 0 else 1).
Proof.
  intros Ho Hl HT.
  assert (H0 : settled None now mounted) by (simpl; auto).
  pose proof (run_settled es None now mounted Ho H0) as Hs.
  rewrite Hl in Hs. simpl in Hs.
  destruct Hs as [(id & Hid & Hp & Hop & Hlt)|(Hp & Hop & Hge)].
  - split; [rewrite Hp; simpl; lia|].
    destruct (Z.leb_spec (t + overlayTimeout) T) as [L|L].
    + apply (elapse_single_due T id _ _ Hp L).
    + destruct (elapse_single_later T id _ _ Hp L) as [_ ->]. exact Hop.
  - split; [rewrite Hp; simpl; lia|].
    destruct (elapse_none T _ Hp) as [_ ->]. rewrite Hop.
    destruct (Z.leb_spec (t + overlayTimeout) T) as [L|L]; [reflexivity|lia].
Qed.

Lemma overlay_hides_after_last_interaction_witness :
  let es := [Interact 0; Interact 1500; Render 1600; Interact 3000] in
  opacity (elapse 4999 (run es mounted)) = 1 /\
  opacity (elapse 5000 (run es mounted)) = 0.
Proof.
  intros es.
  assert (Ho : ordered 0 es) by (simpl; lia).
  split.
  - assert (HT : clock 0 es <= 4999) by (simpl; lia).
    exact (proj2 (overlay_hides_after_last_interaction es 0 3000 4999 Ho eq_refl HT)).
  - assert (HT : clock 0 es <= 5000) by (simpl; lia).
    exact (proj2 (overlay_hides_after_last_interaction es 0 3000 5000 Ho eq_refl HT)).
Defined.

End VisibilityFacts.

(** ** Further properties of the debounced query commit *)

Module TypingFacts.
Import Overlay Typing.

(** *** The armed timers, step by step *)

Lemma orphaned_elapse t o :
  orphaned (elapse t o) = filter (fun tm => due t tm = false) (orphaned o).
Proof. unfold elapse. destruct (current o) as [tm|]; [destruct (due t tm)|]; reflexivity. Qed.

Lemma armed_elapse t o :
  armed (elapse t o) = filter (fun tm => due t tm = false) (armed o).
Proof.
  unfold armed, elapse. rewrite filter_app.
  destruct (current o) as [tm|]; [destruct (due t tm) eqn:E|]; simpl; f_equal.
  - rewrite filter_cons_False by (rewrite E; discriminate). reflexivity.
  - rewrite filter_cons_True by exact E. reflexivity.
Qed.

Lemma committed_elapse t o :
  committed (elapse t o)
  = committed o ++ map fired (filter (fun tm => due t tm = true) (armed o)).
Proof.
  unfold armed, elapse. rewrite filter_app, map_app.
  destruct (current o) as [tm|]; [destruct (due t tm) eqn:E|]; simpl.
  - rewrite filter_cons_True by exact E. reflexivity.
  - rewrite filter_cons_False by (rewrite E; discriminate).
    rewrite ?filter_nil. simpl. rewrite ?app_nil_r. reflexivity.
  - rewrite ?filter_nil. simpl. rewrite ?app_nil_r. reflexivity.
Qed.

Lemma committed_quiesce o :
  committed (quiesce o) = committed o ++ map fired (armed o).
Proof.
  unfold quiesce, armed. simpl. rewrite map_app.
  destruct (current o); reflexivity.
Qed.

Lemma armed_render o : armed (render o) = armed o.
Proof. unfold armed, render. simpl. rewrite app_nil_r. reflexivity. Qed.

Lemma filter_all {A} (P : A -> Prop) `{forall x, Decision (P x)} (l : list A) :
  Forall P l -> filter P l = l.
Proof.
  induction 1 as [|x l Hx Hl IH]; [reflexivity|].
  rewrite filter_cons_True by exact Hx. f_equal. exact IH.
Qed.

Lemma filter_none {A} (P : A -> Prop) `{forall x, Decision (P x)} (l : list A) :
  Forall (fun x => ~ P x) l -> filter P l = [].
Proof.
  induction 1 as [|x l Hx Hl IH]; [reflexivity|].
  rewrite filter_cons_False by exact Hx. exact IH.
Qed.

Lemma Forall_filter_keep {A} (P Q : A -> Prop) `{forall x, Decision (Q x)}
    (l : list A) :
  Forall P l -> Forall P (filter Q l).
Proof.
  induction 1 as [|x l Hx Hl IH]; [constructor|].
  destruct (decide (Q x)) as [q|q].
  - rewrite filter_cons_True by exact q. constructor; assumption.
  - rewrite filter_cons_False by exact q. exact IH.
Qed.

(** Timers in the order of their deadlines fall due from the front. *)
Lemma ascending_split t l :
  ascending l ->
  filter (fun tm => due t tm = true) l ++ filter (fun tm => due t tm = false) l = l.
Proof.
  induction l as [|tm l IH]; intros Ha; [reflexivity|].
  destruct Ha as [Hle Ha]. destruct (due t tm) eqn:E.
  - rewrite filter_cons_True by exact E.
    rewrite filter_cons_False by (rewrite E; discriminate).
    simpl. f_equal. exact (IH Ha).
  - rewrite filter_cons_False by (rewrite E; discriminate).
    rewrite filter_cons_True by exact E.
    assert (Hl : Forall (fun tm' => due t tm' = false) l).
    { eapply Forall_impl; [exact Hle|]. intros tm' Hd. unfold due in *.
      apply Z.leb_gt in E. apply Z.leb_gt. simpl in Hd. lia. }
    rewrite (filter_none (fun tm' => due t tm' = true)).
    + simpl. f_equal. apply filter_all. exact Hl.
    + eapply Forall_impl; [exact Hl|]. intros tm' ->. discriminate.
Qed.

Lemma ascending_filter (Q : Timer -> Prop) `{forall x, Decision (Q x)} l :
  ascending l -> ascending (filter Q l).
Proof.
  induction l as [|tm l IH]; intros Ha; [exact I|].
  destruct Ha as [Hle Ha]. destruct (decide (Q tm)) as [q|q].
  - rewrite filter_cons_True by exact q. split; [|exact (IH Ha)].
    apply Forall_filter_keep. exact Hle.
  - rewrite filter_cons_False by exact q. exact (IH Ha).
Qed.

Lemma ascending_snoc l tm :
  ascending l -> Forall (fun tm' => deadline tm' <= deadline tm) l ->
  ascending (l ++ [tm]).
Proof.
  induction l as [|x l IH]; intros Ha Hb; simpl; [auto|].
  destruct Ha as [Hle Ha]. apply Forall_cons in Hb as [Hx Hb].
  split; [|exact (IH Ha Hb)].
  apply Forall_app. split; [exact Hle|]. constructor; [exact Hx|constructor].
Qed.

(** *** The last value typed *)

Lemma bounded_step now o e :
  now <= time e -> bounded now o -> bounded (time e) (step o e).
Proof.
  intros Hle Hb. unfold bounded in *.
  assert (Hb' : Forall (fun tm => deadline tm <= time e + wait) (armed o)).
  { eapply Forall_impl; [exact Hb|]. simpl. intros. lia. }
  destruct e as [t v|t]; simpl in *.
  - unfold armed, onChange. simpl. apply Forall_app. split.
    + rewrite orphaned_elapse. apply Forall_filter_keep.
      unfold armed in Hb'. apply Forall_app in Hb' as [Ho _]. exact Ho.
    + constructor; [simpl; lia|constructor].
  - rewrite armed_render, armed_elapse. apply Forall_filter_keep. exact Hb'.
Qed.

Lemma pending_last_render t v t' o :
  pending_last t v o -> pending_last t v (step o (Render t')).
Proof.
  intros [(pre & Hpre & Hb)|(Hnil & c & Hc)]; unfold pending_last; simpl.
  - rewrite armed_render, armed_elapse, committed_elapse, Hpre, !filter_app.
    destruct (due t' (call t v)) eqn:E.
    + right. split.
      * rewrite filter_cons_False by (rewrite E; discriminate).
        rewrite (filter_none (fun tm => due t' tm = false)); [reflexivity|].
        eapply Forall_impl; [exact Hb|]. intros tm Hd Hf. unfold due in *.
        apply Z.leb_le in E. apply Z.leb_gt in Hf. simpl in E. lia.
      * rewrite filter_cons_True by exact E. rewrite map_app. simpl.
        eexists. rewrite app_assoc. reflexivity.
    + left. rewrite filter_cons_True by exact E. eexists. split; [reflexivity|].
      apply Forall_filter_keep. exact Hb.
  - right. rewrite armed_render, armed_elapse, committed_elapse, Hnil. simpl.
    rewrite app_nil_r. eauto.
Qed.

Lemma pending_last_change now t v o :
  now <= t -> bounded now o -> pending_last t v (step o (Change t v)).
Proof.
  intros Hle Hb. left. exists (orphaned (elapse t o)). split; [reflexivity|].
  rewrite orphaned_elapse. apply Forall_filter_keep.
  unfold bounded, armed in Hb. apply Forall_app in Hb as [Ho _].
  eapply Forall_impl; [exact Ho|]. simpl. intros. lia.
Qed.

Lemma run_pending_last es : forall now seen o,
  ordered now es ->
  bounded now o ->
  match seen with Some (t, v) => pending_last t v o | None => True end ->
  match last_change seen es with
  | Some (t, v) => pending_last t v (run es o)
  | None => True
  end.
Proof.
  induction es as [|e es IH]; intros now seen o Ho Hb Hs; [exact Hs|].
  destruct Ho as [Hle Ho].
  pose proof (bounded_step now o e Hle Hb) as Hb'.
  destruct e as [t v|t']; simpl in *.
  - apply (IH t (Some (t, v))); [exact Ho|exact Hb'|].
    apply (pending_last_change now); assumption.
  - apply (IH t' seen); [exact Ho|exact Hb'|].
    destruct seen as [[t v]|]; [|exact I].
    apply pending_last_render. exact Hs.
Qed.

(** X13.  The last value wins, renders or not: whatever changes and
    renders of the overlay happen, the last call of [setQueryInUrl] is
    made with the value of the last change of the input, one quiet
    interval after that change. *)
Theorem last_change_is_committed_last es now t v :
  ordered now es ->
  last_change None es = Some (t, v) ->
  last (commits es) = Some (t + wait, v).
Proof.
  intros Ho Hl.
  assert (Hb : bounded now mounted) by constructor.
  pose proof (run_pending_last es now None mounted Ho Hb I) as H.
  rewrite Hl in H. unfold commits. rewrite committed_quiesce.
  destruct H as [(pre & Hpre & _)|(Hnil & c & Hc)].
  - rewrite Hpre, map_app, app_assoc. apply last_snoc.
  - rewrite Hnil, Hc. simpl. rewrite app_nil_r. apply last_snoc.
Qed.

Lemma last_change_is_committed_last_witness :
  last (commits [Change 0 "a"; Render 250; Change 300 "ab"; Render 900;
                 Change 1000 "abc"; Render 1100])
  = Some (1500, "abc"%string).
Proof.
  apply (last_change_is_committed_last _ 0 1000 "abc"); [simpl; lia|reflexivity].
Defined.

End TypingFacts.

(** ** Properties of the application shell *)

Module AppFacts.
Import App TypingFacts.

(** *** The debounced navigation *)

Lemma calls_navigate l : forall now a done,
  fresh now (query a) l ->
  Overlay.current (url a) = None ->
  Typing.ascending (Overlay.orphaned (url a)) ->
  Forall (fun tm => Overlay.deadline tm <= now + Overlay.wait)
         (Overlay.orphaned (url a)) ->
  Overlay.committed (url a) ++ map Overlay.fired (Overlay.orphaned (url a)) = done ->
  navigations (calls l a)
  = done ++ map (fun c => (fst c + Overlay.wait, snd c)) l.
Proof.
  induction l as [|[t text] l IH]; intros now a done Hf Hc Ha Hb Hd.
  - simpl. unfold navigations. rewrite committed_quiesce. unfold Typing.armed.
    rewrite Hc, !app_nil_r. exact Hd.
  - destruct Hf as (Hle & Hne & Hf). simpl calls.
    set (a' := setQueryInUrlAndState t text a).
    assert (Hq : String.eqb text (query a) = false) by (apply String.eqb_neq; exact Hne).
    assert (Hu : url a' = Overlay.render
                            (Overlay.onChange t text (Overlay.elapse t (url a)))).
    { subst a'. unfold setQueryInUrlAndState. simpl. rewrite Hq. reflexivity. }
    assert (Hor : Overlay.orphaned (url a')
                  = filter (fun tm => Overlay.due t tm = false)
                      (Overlay.orphaned (url a)) ++ [Overlay.call t text]).
    { rewrite Hu. unfold Overlay.render, Overlay.onChange. simpl.
      rewrite orphaned_elapse. reflexivity. }
    assert (Hco : Overlay.committed (url a')
                  = Overlay.committed (url a)
                    ++ map Overlay.fired
                         (filter (fun tm => Overlay.due t tm = true)
                            (Overlay.orphaned (url a)))).
    { rewrite Hu. unfold Overlay.render, Overlay.onChange. simpl.
      rewrite committed_elapse. unfold Typing.armed. rewrite Hc, app_nil_r.
      reflexivity. }
    assert (Hb' : Forall (fun tm => Overlay.deadline tm <= t + Overlay.wait)
                    (Overlay.orphaned (url a))).
    { eapply Forall_impl; [exact Hb|]. simpl. intros. lia. }
    rewrite (IH t a' (done ++ [(t + Overlay.wait, text)])).
    + rewrite <- app_assoc. reflexivity.
    + exact Hf.
    + rewrite Hu. reflexivity.
    + rewrite Hor. apply ascending_snoc.
      * apply ascending_filter. exact Ha.
      * apply Forall_filter_keep. exact Hb'.
    + rewrite Hor. apply Forall_app. split.
      * apply Forall_filter_keep. exact Hb'.
      * constructor; [simpl; lia|constructor].
    + rewrite Hco, Hor, map_app, <- app_assoc, (app_assoc (map _ _)), <- map_app.
      rewrite ascending_split by exact Ha. rewrite app_assoc, Hd. reflexivity.
Qed.

(** X14.  In [App] the debounce coalesces nothing: every call of
    [setQueryInUrlAndState] with a text other than the current query
    ends in a navigation of its own, half a second after the call,
    however fast the calls follow each other. *)
Theorem every_new_query_navigates l now q :
  fresh now q l ->
  navigations (calls l (mounted q))
  = map (fun c => (fst c + Overlay.wait, snd c)) l.
Proof.
  intros Hf.
  rewrite (calls_navigate l now (mounted q) []); auto; try exact I.
Qed.

Lemma every_new_query_navigates_witness :
  navigations (calls [(0, "s"); (80, "st"); (170, "sta")]%string (mounted EmptyString))
  = [(500, "s"); (580, "st"); (670, "sta")]%string.
Proof.
  assert (Hf : fresh 0 EmptyString [(0, "s"); (80, "st"); (170, "sta")]%string)
    by (simpl; repeat split; try lia; discriminate).
  exact (every_new_query_navigates _ 0 EmptyString Hf).
Defined.

(** *** The scenes handed to the carousel *)

Section Util.

Variable addApiKey : string -> string.
Variable stashUrl : string.

Lemma toVideo_None video :
  toVideo addApiKey stashUrl video = None <-> nameless video.
Proof.
  unfold toVideo, nameless.
  destruct (or_undefined (title video)) as [t|]; simpl.
  - split; [discriminate|intros [H _]; discriminate H].
  - destruct (files video) as [|f fs]; simpl.
    + split; auto.
    + split; [discriminate|intros [_ H]; discriminate H].
Qed.

Lemma or_undefined_not_empty s : or_undefined s <> Some EmptyString.
Proof. destruct s as [[|c s']|]; simpl; discriminate. Qed.

Lemma videos_prop_loaded scenes :
  videos_prop addApiKey stashUrl (Some scenes)
  = mapM (toVideo addApiKey stashUrl) scenes.
Proof.
  unfold videos_prop, videos.
  destruct (mapM (toVideo addApiKey stashUrl) scenes); reflexivity.
Qed.

(** X15.  While the query is loading the carousel gets the empty list.
    Once the scenes are there, their mapping either throws, exactly
    when some scene has neither a non-empty title nor a file, or yields
    one video per scene, in order; a video never carries an empty
    string as its date or studio, and its title is the scene's title
    when that is not empty. *)
Theorem scenes_to_videos scenes :
  videos_prop addApiKey stashUrl None = Some [] /\
  match videos_prop addApiKey stashUrl (Some scenes) with
  | None => Exists nameless scenes
  | Some vs =>
      Forall (fun video => ~ nameless video) scenes /\
      Forall2 (fun video v =>
                 video_date v <> Some EmptyString /\
                 video_studio v <> Some EmptyString /\
                 video_performers v = map performer_name (performers video) /\
                 forall t, title video = Some t -> t <> EmptyString ->
                           video_title v = t)
              scenes vs
  end.
Proof.
  split; [reflexivity|]. rewrite videos_prop_loaded.
  induction scenes as [|video scenes IH]; simpl.
  - split; constructor.
  - destruct (toVideo addApiKey stashUrl video) as [v|] eqn:E; simpl.
    + destruct (mapM (toVideo addApiKey stashUrl) scenes) as [vs|]; simpl.
      * destruct IH as [Hn Hall]. split.
        -- constructor; [|exact Hn]. intros Hnl.
           apply toVideo_None in Hnl. congruence.
        -- constructor; [|exact Hall].
           unfold toVideo in E.
           destruct (or_undefined (title video)) as [t0|] eqn:Et.
           ++ inversion E; subst v; simpl. split_and!; auto using or_undefined_not_empty.
              intros t Ht Hne. rewrite Ht in Et.
              destruct t; [contradiction|]. simpl in Et. congruence.
           ++ destruct (files video) as [|f fs]; [discriminate|].
              inversion E; subst v; simpl. split_and!; auto using or_undefined_not_empty.
              intros t Ht Hne. rewrite Ht in Et.
              destruct t; [contradiction|]. simpl in Et. discriminate.
      * apply Exists_cons_tl. exact IH.
    + apply Exists_cons_hd. apply toVideo_None. exact E.
Qed.

End Util.

Lemma scenes_to_videos_witness :
  let scenes :=
    [{| id := "7"; date := None; performers := []; studio := None;
        title := Some "t"%string; files := [] |};
     {| id := "8"; date := Some EmptyString; performers := []; studio := None;
        title := Some EmptyString; files := [] |}] in
  Exists nameless scenes.
Proof.
  intros scenes.
  exact (proj2 (scenes_to_videos (fun u => u) "http://stash" scenes)).
Defined.

End AppFacts.

(** ** Properties of the query in the address bar *)

Module UrlFacts.
Import Ascii Url.
Local Open Scope char_scope.

(** Facts about single bytes, checked on all 256 of them. *)
Lemma unreserved_plain c :
  unreserved c = true -> plain c = true /\ Ascii.eqb c "%" = false.
Proof.
  destruct c as [[] [] [] [] [] [] [] []]; vm_compute; intros H;
    try discriminate H; split; reflexivity.
Qed.

Lemma hex_plain c :
  plain (hex (N_of_ascii c / 16)) = true /\
  plain (hex (N_of_ascii c mod 16)) = true.
Proof. destruct c as [[] [] [] [] [] [] [] []]; vm_compute; split; reflexivity. Qed.

Lemma unhex_hex c :
  unhex (hex (N_of_ascii c / 16)) = Some (N_of_ascii c / 16)%N /\
  unhex (hex (N_of_ascii c mod 16)) = Some (N_of_ascii c mod 16)%N /\
  ascii_of_N (16 * (N_of_ascii c / 16) + N_of_ascii c mod 16) = c.
Proof.
  destruct c as [[] [] [] [] [] [] [] []]; vm_compute; repeat split; reflexivity.
Qed.

(** The encoding contains no [&], [=] or [+]. *)
Lemma encode_all_plain s : all_plain (encodeURIComponent s) = true.
Proof.
  induction s as [|c rest IH]; [reflexivity|]. simpl.
  destruct (unreserved c) eqn:E; simpl.
  - destruct (unreserved_plain c E) as [-> _]. exact IH.
  - destruct (hex_plain c) as [-> ->]. exact IH.
Qed.

Lemma all_plain_free s :
  all_plain s = true -> free_of "&" s = true /\ free_of "+" s = true.
Proof.
  induction s as [|c rest IH]; [auto|]. simpl. intros H.
  apply andb_true_iff in H as [Hc Hr]. destruct (IH Hr) as [-> ->].
  unfold plain in Hc. destruct (Ascii.eqb c "&"), (Ascii.eqb c "+");
    try discriminate Hc; auto.
  rewrite andb_false_r in Hc. discriminate Hc.
Qed.

Lemma split_on_free x s :
  free_of x s = true -> split_on x s = [s].
Proof.
  induction s as [|c rest IH]; [reflexivity|]. simpl. intros H.
  apply andb_true_iff in H as [Hc Hr]. rewrite (IH Hr).
  destruct (Ascii.eqb c x); [discriminate Hc|reflexivity].
Qed.

Lemma plus_to_space_free s :
  free_of "+" s = true -> plus_to_space s = s.
Proof.
  induction s as [|c rest IH]; [reflexivity|]. simpl. intros H.
  apply andb_true_iff in H as [Hc Hr]. rewrite (IH Hr).
  destruct (Ascii.eqb c "+"); [discriminate Hc|reflexivity].
Qed.

(** Decoding undoes the encoding, byte by byte. *)
Lemma percent_decode_encode s :
  percent_decode (encodeURIComponent s) = s.
Proof.
  induction s as [|c rest IH]; [reflexivity|].
  cbn [encodeURIComponent]. destruct (unreserved c) eqn:E.
  - cbn [percent_decode]. destruct (unreserved_plain c E) as [_ ->].
    rewrite IH. reflexivity.
  - cbn [percent_decode]. rewrite Ascii.eqb_refl.
    destruct (unhex_hex c) as (-> & -> & ->). rewrite IH. reflexivity.
Qed.

(** X16.  The query survives the address bar: reading the [q]
    parameter back from the search string that [setQueryInUrl] hands to
    [navigate] gives the text that was committed, whatever characters
    it holds ([&], [=], [+], [%], spaces, bytes beyond ASCII) and also
    when it is empty. *)
Theorem query_survives_the_address_bar (text : string) :
  initial_query (search_of text) = text /\
  parse (search_of text) = [("q"%string, text)].
Proof.
  assert (Hp : parse (search_of text) = [("q"%string, text)]).
  { destruct (all_plain_free _ (encode_all_plain text)) as [Hamp Hplus].
    unfold parse, search_of.
    rewrite (split_on_free "&" (String "q" (String "=" (encodeURIComponent text))))
      by exact Hamp.
    simpl. unfold decode. rewrite (plus_to_space_free _ Hplus).
    rewrite percent_decode_encode. reflexivity. }
  split; [|exact Hp]. unfold initial_query. rewrite Hp. reflexivity.
Qed.

End UrlFacts.
